(** * A mark-and-sweep collector for a two-type stack machine

    Shallow embedding of [GarbageCollector.c]: the [VM] struct, the
    malloc'ed [Object]s it links together, the stack operations, the
    allocator and the mark / sweep passes of the collector. *)

From stdpp Require Import gmap list fin_maps.
From Stdlib Require Import ZArith Lia.

Local Open Scope Z_scope.

(** ** Constants *)

Definition STACK_MAX_SIZE : Z := 256.
Definition INITIAL_GC_THRESHOLD : Z := 16.

(** The C [int] is 32 bits wide.  Arithmetic on it is written with the
    two's-complement wrap-around a compiled program shows. *)
Definition INT_MAX : Z := 2147483647.
Definition int_wrap (z : Z) : Z := (z + 2 ^ 31) mod 2 ^ 32 - 2 ^ 31.

(** ** Objects and the heap *)

Inductive ObjectType := INT_TYPE | PAIR_TYPE.

#[global] Instance ObjectType_eq_dec : EqDecision ObjectType.
Proof. solve_decision. Defined.

(** Addresses of malloc'ed blocks; a pointer is an address or NULL. *)
Definition addr := positive.
Definition ptr := option addr.
Definition NULL : ptr := None.

(** [struct sObject].  The anonymous union is laid out as three fields:
    the program reads [head] and [tail] only on a [PAIR_TYPE] object and never
    reads [value], so the overlap is not observable.  A field that has
    not been assigned yet holds 0 / NULL. *)
Record Object := mkObject {
  objectType : ObjectType;
  marked : bool;
  next : ptr;
  value : Z;
  head : ptr;
  tail : ptr
}.

Definition set_marked (m : bool) (o : Object) : Object :=
  mkObject (objectType o) m (next o) (value o) (head o) (tail o).
Definition set_next (p : ptr) (o : Object) : Object :=
  mkObject (objectType o) (marked o) p (value o) (head o) (tail o).
Definition set_value (v : Z) (o : Object) : Object :=
  mkObject (objectType o) (marked o) (next o) v (head o) (tail o).
Definition set_head (p : ptr) (o : Object) : Object :=
  mkObject (objectType o) (marked o) (next o) (value o) p (tail o).
Definition set_tail (p : ptr) (o : Object) : Object :=
  mkObject (objectType o) (marked o) (next o) (value o) (head o) p.

Abbreviation Heap := (gmap addr Object).

(** [malloc] hands out an address that is not in use. *)
Definition malloc (h : Heap) : addr := fresh (dom h).

(** ** The virtual machine *)

(** [VM] together with the heap its pointers refer to. *)
Record VM := mkVM {
  stack : list ptr;
  stackSize : Z;
  numObjects : Z;
  maxObjects : Z;
  firstObject : ptr;
  heap : Heap
}.

Definition with_stack (s : list ptr) (n : Z) (vm : VM) : VM :=
  mkVM s n (numObjects vm) (maxObjects vm) (firstObject vm) (heap vm).
Definition with_stackSize (n : Z) (vm : VM) : VM :=
  mkVM (stack vm) n (numObjects vm) (maxObjects vm) (firstObject vm) (heap vm).
Definition with_heap (h : Heap) (vm : VM) : VM :=
  mkVM (stack vm) (stackSize vm) (numObjects vm) (maxObjects vm) (firstObject vm) h.
Definition with_firstObject (p : ptr) (vm : VM) : VM :=
  mkVM (stack vm) (stackSize vm) (numObjects vm) (maxObjects vm) p (heap vm).
Definition with_numObjects (n : Z) (vm : VM) : VM :=
  mkVM (stack vm) (stackSize vm) n (maxObjects vm) (firstObject vm) (heap vm).
Definition with_maxObjects (n : Z) (vm : VM) : VM :=
  mkVM (stack vm) (stackSize vm) (numObjects vm) n (firstObject vm) (heap vm).

(** ** Outcomes of a call *)

Inductive error := StackOverflow | StackUnderflow.

(** What the C standard leaves undefined and this program can run into. *)
Inductive fault :=
  | OutOfBounds (index : Z)      (* stack[index] outside the array *)
  | BadPointer (p : ptr).        (* NULL or freed pointer dereferenced *)

(** A call returns, or prints its message and exits the process (the
    state is the one at the moment of [exit]), or runs into undefined
    behaviour, or exhausts the recursion budget of the model. *)
Inductive outcome (St A : Type) :=
  | Ret (a : A) (s : St)
  | Exit (e : error) (s : St)
  | Undefined (f : fault)
  | OutOfFuel.
Arguments Ret {St A} a s.
Arguments Exit {St A} e s.
Arguments Undefined {St A} f.
Arguments OutOfFuel {St A}.

Definition M (St A : Type) := St -> outcome St A.

Definition ret {St A} (a : A) : M St A := fun s => Ret a s.
Definition bind {St A B} (m : M St A) (k : A -> M St B) : M St B :=
  fun s =>
    match m s with
    | Ret a s' => k a s'
    | Exit e s' => Exit e s'
    | Undefined f => Undefined f
    | OutOfFuel => OutOfFuel
    end.

Notation "x <- m ;; k" := (bind m (fun x => k))
  (at level 100, m at next level, right associativity).
Notation "m ;;; k" := (bind m (fun _ => k))
  (at level 100, right associativity).

(** ** Creating a VM *)

(** [newVM] leaves the slots of the stack array as [malloc] returned
    them; they are written before they are read, and stand as NULL here. *)
Definition newVM : VM :=
  mkVM (replicate (Z.to_nat STACK_MAX_SIZE) NULL) 0 0 INITIAL_GC_THRESHOLD NULL ∅.

(** ** Stack manipulation *)

(** [push] stores at index [stackSize] after its guard; an index outside
    the array is undefined behaviour.  [pop] reads at [stackSize - 1]. *)
Definition push (value : ptr) : M VM unit := fun vm =>
  if stackSize vm >? STACK_MAX_SIZE then Exit StackOverflow vm
  else if (0 <=? stackSize vm) && (stackSize vm <? Z.of_nat (length (stack vm))) then
    Ret tt (with_stack (<[Z.to_nat (stackSize vm) := value]> (stack vm))
                       (stackSize vm + 1) vm)
  else Undefined (OutOfBounds (stackSize vm)).

Definition pop : M VM ptr := fun vm =>
  if negb (stackSize vm >? 0) then Exit StackUnderflow vm
  else
    let n := stackSize vm - 1 in
    match stack vm !! Z.to_nat n with
    | Some p => Ret p (with_stackSize n vm)
    | None => Undefined (OutOfBounds n)
    end.

(** ** Marking *)

(** [mark] recurses through the object graph; [fuel] bounds the depth of
    the recursion. *)
Fixpoint mark (fuel : nat) (object : ptr) : M Heap unit := fun h =>
  match fuel with
  | O => OutOfFuel
  | S fuel' =>
      match object with
      | None => Undefined (BadPointer object)
      | Some a =>
          match h !! a with
          | None => Undefined (BadPointer object)
          | Some o =>
              if marked o then Ret tt h
              else
                let h1 := <[a := set_marked true o]> h in
                match objectType o with
                | PAIR_TYPE =>
                    (mark fuel' (head o) ;;; mark fuel' (tail o)) h1
                | INT_TYPE => Ret tt h1
                end
          end
      end
  end.

(** Recursion budget that [markAll] gives each call of [mark]: one level
    per object plus the level that finds a marked object. *)
Definition mark_fuel (h : Heap) : nat := S (size h).

(** Run a heap computation on the heap of the VM. *)
Definition on_heap {A} (m : M Heap A) : M VM A := fun vm =>
  match m (heap vm) with
  | Ret a h => Ret a (with_heap h vm)
  | Exit e h => Exit e (with_heap h vm)
  | Undefined f => Undefined f
  | OutOfFuel => OutOfFuel
  end.

(** The [for] loop of [markAll]: [n] iterations are left, [i] is the
    loop counter. *)
Fixpoint markAll_loop (n : nat) (i : Z) : M VM unit := fun vm =>
  match n with
  | O => Ret tt vm
  | S n' =>
      match stack vm !! Z.to_nat i with
      | None => Undefined (OutOfBounds i)
      | Some p =>
          (on_heap (mark (mark_fuel (heap vm)) p) ;;; markAll_loop n' (i + 1)) vm
      end
  end.

Definition markAll : M VM unit := fun vm =>
  markAll_loop (Z.to_nat (stackSize vm)) 0 vm.

(** ** Sweeping *)

(** What the [Object**] cursor of [sweep] points at. *)
Inductive slot :=
  | FirstObject            (* &vm->firstObject *)
  | NextOf (a : addr).     (* &a->next *)

Definition load (object : slot) (vm : VM) : option ptr :=
  match object with
  | FirstObject => Some (firstObject vm)
  | NextOf a => next <$> heap vm !! a
  end.

Definition store (object : slot) (p : ptr) (vm : VM) : VM :=
  match object with
  | FirstObject => with_firstObject p vm
  | NextOf a => with_heap (alter (set_next p) a (heap vm)) vm
  end.

Definition free (a : addr) (vm : VM) : VM := with_heap (delete a (heap vm)) vm.

Definition slot_ptr (object : slot) : ptr :=
  match object with FirstObject => None | NextOf a => Some a end.

(** The [while] loop of [sweep]; [fuel] bounds the number of iterations. *)
Fixpoint sweep_loop (fuel : nat) (object : slot) : M VM unit := fun vm =>
  match fuel with
  | O => OutOfFuel
  | S fuel' =>
      match load object vm with
      | None => Undefined (BadPointer (slot_ptr object))
      | Some None => Ret tt vm
      | Some (Some a) =>
          match heap vm !! a with
          | None => Undefined (BadPointer (Some a))
          | Some o =>
              if negb (marked o) then
                let unreached := a in
                sweep_loop fuel' object (free unreached (store object (next o) vm))
              else
                sweep_loop fuel' (NextOf a)
                  (with_heap (<[a := set_marked false o]> (heap vm)) vm)
          end
      end
  end.

(** One iteration per allocated object, and the one that finds NULL. *)
Definition sweep : M VM unit := fun vm =>
  sweep_loop (S (size (heap vm))) FirstObject vm.

(** ** The collector *)

(** The local [int numObjects = vm->numObjects] of [gc] is never read and
    has no counterpart here. *)
Definition gc : M VM unit :=
  markAll ;;;
  sweep ;;;
  fun vm => Ret tt (with_maxObjects (int_wrap (numObjects vm * 2)) vm).

(** ** Allocation *)

Definition newObject (objectType : ObjectType) : M VM addr :=
  (fun vm => if numObjects vm =? maxObjects vm then gc vm else Ret tt vm) ;;;
  fun vm =>
    let object := malloc (heap vm) in
    let o := mkObject objectType false (firstObject vm) 0 NULL NULL in
    Ret object
      (with_numObjects (int_wrap (numObjects vm + 1))
         (with_firstObject (Some object)
            (with_heap (<[object := o]> (heap vm)) vm))).

(** Assignment to a field of [*object]. *)
Definition assign (f : Object -> Object) (object : addr) : M VM unit := fun vm =>
  match heap vm !! object with
  | None => Undefined (BadPointer (Some object))
  | Some o => Ret tt (with_heap (<[object := f o]> (heap vm)) vm)
  end.

Definition pushInt (intValue : Z) : M VM unit :=
  object <- newObject INT_TYPE ;;
  assign (set_value intValue) object ;;;
  push (Some object).

Definition pushPair : M VM addr :=
  object <- newObject PAIR_TYPE ;;
  t <- pop ;;
  assign (set_tail t) object ;;;
  h <- pop ;;
  assign (set_head h) object ;;;
  push (Some object) ;;;
  ret object.

(** ** The test driver *)

Definition main_before_gc : M VM ptr :=
  pushInt 0 ;;;
  pushInt 1 ;;;
  pushInt 2 ;;;
  pushPair ;;;
  pushPair ;;;
  pop.

Definition main : M VM unit := main_before_gc ;;; gc.

(** ** Well-formed states, the registry and reachability *)

Definition valid (h : Heap) (p : ptr) : bool :=
  match p with
  | Some a => match h !! a with Some _ => true | None => false end
  | None => false
  end.

(** Follow the [next] links from [p] until NULL. *)
Fixpoint walk (fuel : nat) (h : Heap) (p : ptr) : option (list addr) :=
  match p with
  | None => Some []
  | Some a =>
      match fuel with
      | O => None
      | S fuel' =>
          match h !! a with
          | None => None
          | Some o => cons a <$> walk fuel' h (next o)
          end
      end
  end.

(** The objects linked from [firstObject], in list order. *)
Definition registry (vm : VM) : option (list addr) :=
  walk (size (heap vm)) (heap vm) (firstObject vm).

Definition obj_ok (h : Heap) (o : Object) : bool :=
  negb (marked o) &&
  match objectType o with
  | PAIR_TYPE => valid h (head o) && valid h (tail o)
  | INT_TYPE => true
  end.

Definition heap_ok (h : Heap) : bool :=
  forallb (fun ao => obj_ok h ao.2) (map_to_list h).

Definition chain_ok (vm : VM) : bool :=
  match registry vm with
  | Some l =>
      bool_decide (NoDup l) &&
      forallb (fun ao => bool_decide (ao.1 ∈ l)) (map_to_list (heap vm))
  | None => false
  end.

Definition stack_ok (vm : VM) : bool :=
  (0 <=? stackSize vm) && (stackSize vm <=? STACK_MAX_SIZE) &&
  (Z.of_nat (length (stack vm)) =? STACK_MAX_SIZE) &&
  forallb (valid (heap vm)) (take (Z.to_nat (stackSize vm)) (stack vm)).

(** The states the program keeps between calls: the registry is a
    NULL-terminated list of all allocated objects, no object is marked,
    the fields of every pair and the live part of the stack point to
    allocated objects. *)
Definition wf (vm : VM) : bool := chain_ok vm && heap_ok (heap vm) && stack_ok vm.

(** [chain h p l]: following [next] from [p] visits exactly [l]. *)
Fixpoint chain (h : Heap) (p : ptr) (l : list addr) : Prop :=
  match l with
  | [] => p = None
  | a :: l' => p = Some a ∧ ∃ o, h !! a = Some o ∧ chain h (next o) l'
  end.

(** [reach h a b]: [b] is [a] or is found from [a] through the fields of
    pairs. *)
Inductive reach (h : Heap) : addr -> addr -> Prop :=
  | reach_refl a : reach h a a
  | reach_head a b c o :
      h !! a = Some o -> objectType o = PAIR_TYPE -> head o = Some b ->
      reach h b c -> reach h a c
  | reach_tail a b c o :
      h !! a = Some o -> objectType o = PAIR_TYPE -> tail o = Some b ->
      reach h b c -> reach h a c.

Definition root (vm : VM) (a : addr) : Prop :=
  ∃ i, 0 <= i < stackSize vm ∧ stack vm !! Z.to_nat i = Some (Some a).

Definition reachable (vm : VM) (a : addr) : Prop :=
  ∃ r, root vm r ∧ reach (heap vm) r a.

(** Every pair in the heap points to allocated objects. *)
Definition closed (h : Heap) : Prop :=
  ∀ a o, h !! a = Some o -> objectType o = PAIR_TYPE ->
    valid h (head o) = true ∧ valid h (tail o) = true.

Definition unmarked (h : Heap) : Prop :=
  ∀ a o, h !! a = Some o -> marked o = false.

(** The reading of [wf] as a proposition. *)
Record WF (vm : VM) : Prop := mkWF {
  WF_chain : ∃ l, chain (heap vm) (firstObject vm) l ∧ NoDup l ∧
                  ∀ a, is_Some (heap vm !! a) -> a ∈ l;
  WF_unmarked : unmarked (heap vm);
  WF_closed : closed (heap vm);
  WF_size : 0 <= stackSize vm <= STACK_MAX_SIZE ∧
            Z.of_nat (length (stack vm)) = STACK_MAX_SIZE;
  WF_roots : ∀ i p, 0 <= i < stackSize vm ->
               stack vm !! Z.to_nat i = Some p -> valid (heap vm) p = true
}.

(** The heap with every mark cleared: what [mark] leaves untouched. *)
Definition erase (h : Heap) : Heap := set_marked false <$> h.

Definition is_marked (h : Heap) (a : addr) : Prop :=
  ∃ o, h !! a = Some o ∧ marked o = true.

(** Both fields of the pair at [a] are marked. *)
Definition fields_marked (h : Heap) (a : addr) : Prop :=
  ∀ o, h !! a = Some o -> objectType o = PAIR_TYPE ->
    ∃ b c, head o = Some b ∧ tail o = Some c ∧ is_marked h b ∧ is_marked h c.

(** What a returning call [mark p] on [h] guarantees about the heap
    [h'] it leaves: only marks changed, marks are kept, [p] is marked,
    and every object marked by the call is reachable from [p] and has
    its fields marked. *)
Definition mark_post (h : Heap) (p : ptr) (h' : Heap) : Prop :=
  erase h' = erase h ∧
  (∀ a, is_marked h a -> is_marked h' a) ∧
  (∃ r, p = Some r ∧ is_marked h' r) ∧
  (∀ a, is_marked h' a ->
     is_marked h a ∨ (fields_marked h' a ∧ ∃ r, p = Some r ∧ reach h r a)).

(** Invariant of the loop of [markAll] before iteration [i], on the
    state [vm] the collection started from and the current heap [h]. *)
Definition markAll_inv (vm : VM) (i : Z) (h : Heap) : Prop :=
  erase h = erase (heap vm) ∧
  (∀ j r, 0 <= j < i -> stack vm !! Z.to_nat j = Some (Some r) -> is_marked h r) ∧
  (∀ a, is_marked h a -> fields_marked h a ∧ reachable vm a).

Definition markedb (h : Heap) (a : addr) : bool :=
  match h !! a with Some o => marked o | None => false end.

(** The objects of [l] that are marked in [h], in the order of [l]. *)
Definition kept (h : Heap) (l : list addr) : list addr :=
  filter (fun a => markedb h a = true) l.

(** What the loop of [sweep], started with the cursor [object] at the
    head of the chain [l] in state [vm], leaves in [vm']: the marked
    objects of [l] stay linked from [object], in order and unmarked, the
    others are freed, and nothing else changes but the link the cursor
    started at. *)
Definition sweep_post (l : list addr) (object : slot) (vm vm' : VM) : Prop :=
  (stack vm' = stack vm ∧ stackSize vm' = stackSize vm ∧
   numObjects vm' = numObjects vm ∧ maxObjects vm' = maxObjects vm) ∧
  (∃ cur', load object vm' = Some cur' ∧
           chain (heap vm') cur' (kept (heap vm) l)) ∧
  (∀ a o, a ∈ l -> heap vm !! a = Some o -> marked o = true ->
     ∃ o', heap vm' !! a = Some o' ∧ o' = set_next (next o') (set_marked false o)) ∧
  (∀ a o, a ∈ l -> heap vm !! a = Some o -> marked o = false ->
     heap vm' !! a = None) ∧
  (∀ a, a ∉ l -> slot_ptr object ≠ Some a -> heap vm' !! a = heap vm !! a) ∧
  (∀ b o, object = NextOf b -> heap vm !! b = Some o ->
     firstObject vm' = firstObject vm ∧
     ∃ o', heap vm' !! b = Some o' ∧ o' = set_next (next o') o).

(** What a collection started in [vm] leaves in [vm']: the registry
    keeps, in order, exactly the objects reachable from the stack, with
    their contents; the others are freed.  The stack and the object
    count are as before. *)
Definition gc_post (vm vm' : VM) : Prop :=
  (stack vm' = stack vm ∧ stackSize vm' = stackSize vm ∧
   numObjects vm' = numObjects vm ∧
   maxObjects vm' = int_wrap (numObjects vm * 2)) ∧
  (∀ a o, heap vm !! a = Some o -> reachable vm a ->
     ∃ o', heap vm' !! a = Some o' ∧ o' = set_next (next o') o) ∧
  (∀ a, ¬ reachable vm a -> heap vm' !! a = None) ∧
  (∀ a o', heap vm' !! a = Some o' ->
     reachable vm a ∧ ∃ o, heap vm !! a = Some o ∧ o' = set_next (next o') o) ∧
  ∃ l l', chain (heap vm) (firstObject vm) l ∧
          chain (heap vm') (firstObject vm') l' ∧
          NoDup l' ∧ l' `sublist_of` l ∧
          ∀ a, a ∈ l' ↔ is_Some (heap vm' !! a).

(** No registered object is marked. *)
Definition registry_unmarked (vm : VM) : Prop :=
  ∃ l, registry vm = Some l ∧
       ∀ a, a ∈ l -> ∃ o, heap vm !! a = Some o ∧ marked o = false.

(** [a] lies on a cycle of pair fields. *)
Definition on_cycle (h : Heap) (a : addr) : Prop :=
  ∃ o b, h !! a = Some o ∧ objectType o = PAIR_TYPE ∧
         (head o = Some b ∨ tail o = Some b) ∧ reach h b a.

(** An operation that exits does so in the state it was called in. *)
Definition exits_unchanged {A} (op : M VM A) : Prop :=
  ∀ vm e vm', op vm = Exit e vm' -> vm' = vm.

(** ** States used as examples *)

Definition final {A} (r : outcome VM A) : VM :=
  match r with Ret _ s => s | Exit _ s => s | _ => newVM end.

(** The state of [main] when it calls [gc]: five objects, empty stack. *)
Definition vm_main : VM := final (main_before_gc newVM).

(** Three ints and a pair of the last two, the pair popped again: int 0
    is the only root, the pair and its two ints are garbage. *)
Definition vm_one_root : VM :=
  final ((pushInt 0 ;;; pushInt 1 ;;; pushInt 2 ;;; pushPair ;;; pop) newVM).

(** [vm_one_root] between [markAll] and [sweep]. *)
Definition vm_one_root_marked : VM := final (markAll vm_one_root).

(** Two ints on the stack. *)
Definition vm_two : VM := final ((pushInt 7 ;;; pushInt 8) newVM).

(** A collection forced on the new VM, then one int pushed: one object,
    threshold 0. *)
Definition vm_past : VM := final ((gc ;;; pushInt 0) newVM).

(** A full stack: every slot holds the one int of the heap. *)
Definition vm_full : VM :=
  mkVM (replicate (Z.to_nat STACK_MAX_SIZE) (Some 1%positive)) STACK_MAX_SIZE 1
       INITIAL_GC_THRESHOLD (Some 1%positive)
       {[ 1%positive := mkObject INT_TYPE false NULL 0 NULL NULL ]}.

(** A heap with cycles.  Object 1, the only root, is a pair whose head
    is itself and whose tail is the int 2; the pairs 3 and 4 point to each
    other and to 1, and nothing points to them. *)
Definition vm_cyclic : VM :=
  mkVM (<[0%nat := Some 1%positive]> (replicate (Z.to_nat STACK_MAX_SIZE) NULL)) 1 4
       INITIAL_GC_THRESHOLD (Some 4%positive)
       (<[ 4%positive := mkObject PAIR_TYPE false (Some 3%positive) 0
                           (Some 3%positive) (Some 3%positive) ]>
        (<[ 3%positive := mkObject PAIR_TYPE false (Some 2%positive) 0
                            (Some 4%positive) (Some 1%positive) ]>
         (<[ 2%positive := mkObject INT_TYPE false (Some 1%positive) 5 NULL NULL ]>
          (<[ 1%positive := mkObject PAIR_TYPE false NULL 0
                              (Some 1%positive) (Some 2%positive) ]> ∅)))).

(** ** Basic facts *)

Lemma valid_Some h p :
  valid h p = true ↔ ∃ a o, p = Some a ∧ h !! a = Some o.
Proof.
  unfold valid. split.
  - destruct p as [a|]; [|done]. destruct (h !! a) as [o|] eqn:E; [|done]. eauto.
  - intros (a & o & -> & ->). done.
Qed.

Lemma walk_chain fuel h p l : walk fuel h p = Some l -> chain h p l.
Proof.
  revert p l. induction fuel as [|fuel IH]; intros [a|] l; simpl; try congruence.
  - intros [= <-]. done.
  - destruct (h !! a) as [o|] eqn:E; [|done].
    destruct (walk fuel h (next o)) as [l'|] eqn:W; simpl; [|done].
    intros [= <-]. simpl. split; [done|]. exists o. split; [done|]. by apply IH.
  - intros [= <-]. done.
Qed.

Lemma chain_elem h p l a : chain h p l -> a ∈ l -> is_Some (h !! a).
Proof.
  revert p. induction l as [|b l IH]; intros p; simpl.
  - intros _ H. by apply not_elem_of_nil in H.
  - intros [-> (o & Ho & Hc)] [->|H]%elem_of_cons; [eauto|]. eapply IH; eauto.
Qed.

Lemma chain_det h p l1 l2 : chain h p l1 -> chain h p l2 -> l1 = l2.
Proof.
  revert p l2. induction l1 as [|a l1 IH]; intros p [|b l2]; simpl; try done.
  - intros -> [? _]. done.
  - intros [-> _] ?. done.
  - intros [-> (o & Ho & Hc)] [[= <-] (o' & Ho' & Hc')].
    rewrite Ho in Ho'. injection Ho' as <-. f_equal. eauto.
Qed.

(** A chain only depends on the objects it visits. *)
Lemma chain_ext h h' p l :
  (∀ a, a ∈ l -> next <$> h' !! a = next <$> h !! a) ->
  chain h p l -> chain h' p l.
Proof.
  revert p. induction l as [|a l IH]; intros p Hext; simpl; [done|].
  intros [-> (o & Ho & Hc)]. split; [done|].
  specialize (Hext a (list_elem_of_here _ _)) as Ha. rewrite Ho in Ha. simpl in Ha.
  destruct (h' !! a) as [o'|] eqn:Ho'; simpl in Ha; [|done].
  injection Ha as Ha. exists o'. split; [done|]. rewrite Ha.
  apply IH; [|done]. intros b Hb. apply Hext. by apply list_elem_of_further.
Qed.

Lemma chain_walk fuel h p l :
  chain h p l -> (length l <= fuel)%nat -> walk fuel h p = Some l.
Proof.
  revert p l. induction fuel as [|fuel IH]; intros p [|a l]; simpl.
  - by intros ->.
  - lia.
  - by intros ->.
  - intros [-> (o & Ho & Hc)] Hlen. rewrite Ho.
    rewrite (IH _ _ Hc); [done|lia].
Qed.

Lemma chain_length h p l :
  chain h p l -> NoDup l -> (length l <= size h)%nat.
Proof.
  intros Hc Hnd.
  rewrite <- (size_list_to_set (C:=gset addr) l Hnd), <- size_dom.
  apply subseteq_size. intros a Ha. apply elem_of_list_to_set in Ha.
  apply elem_of_dom. eapply chain_elem; eauto.
Qed.

Lemma wf_WF vm : wf vm = true -> WF vm.
Proof.
  unfold wf, chain_ok, heap_ok, stack_ok.
  rewrite !andb_true_iff. intros [[Hc Hh] [[[H0 H1] H2] H3]].
  destruct (registry vm) as [l|] eqn:Hreg; [|done].
  apply andb_true_iff in Hc as [Hnd Hall].
  apply bool_decide_eq_true in Hnd.
  rewrite forallb_forall in Hall, Hh, H3.
  split.
  - exists l. split; [by eapply walk_chain|]. split; [done|].
    intros a [o Ho].
    specialize (Hall (a, o)). simpl in Hall.
    assert (bool_decide (a ∈ l) = true) as Hb
      by (by apply Hall, list_elem_of_In, elem_of_map_to_list).
    by apply bool_decide_eq_true in Hb.
  - intros a o Ho.
    specialize (Hh (a, o)). simpl in Hh. unfold obj_ok in Hh.
    rewrite andb_true_iff in Hh.
    destruct Hh as [Hm _]; [by apply list_elem_of_In, elem_of_map_to_list|].
    by destruct (marked o).
  - intros a o Ho Hty.
    specialize (Hh (a, o)). simpl in Hh. unfold obj_ok in Hh.
    rewrite Hty, !andb_true_iff in Hh.
    destruct Hh as [_ Hv]; [by apply list_elem_of_In, elem_of_map_to_list|]. done.
  - lia.
  - intros i p Hi Hp. apply H3, list_elem_of_In, list_elem_of_lookup.
    exists (Z.to_nat i). rewrite lookup_take_lt; [done|lia].
Qed.

(** ** Marking *)

Lemma erase_lookup h h' a o :
  erase h' = erase h -> h !! a = Some o ->
  ∃ o', h' !! a = Some o' ∧ o' = set_marked (marked o') o.
Proof.
  intros He Ho. apply (f_equal (fun m => m !! a)) in He.
  unfold erase in He. rewrite !lookup_fmap, Ho in He. simpl in He.
  destruct (h' !! a) as [o'|]; [|done]. injection He as He.
  exists o'. split; [done|]. destruct o, o'. unfold set_marked in *. simpl in *.
  congruence.
Qed.

Lemma erase_lookup_None h h' a :
  erase h' = erase h -> h !! a = None -> h' !! a = None.
Proof.
  intros He Ho. apply (f_equal (fun m => m !! a)) in He.
  unfold erase in He. rewrite !lookup_fmap, Ho in He. simpl in He.
  by destruct (h' !! a).
Qed.

Lemma erase_insert_marked h a o m :
  h !! a = Some o -> erase (<[a := set_marked m o]> h) = erase h.
Proof.
  intros Ho. unfold erase. rewrite fmap_insert. apply insert_id.
  rewrite lookup_fmap, Ho. by destruct o.
Qed.

Lemma valid_erase h h' p : erase h' = erase h -> valid h p = valid h' p.
Proof.
  intros He. destruct p as [a|]; [|done]. simpl.
  destruct (h !! a) as [o|] eqn:Ho.
  - destruct (erase_lookup _ _ _ _ He Ho) as (o' & -> & _). done.
  - by rewrite (erase_lookup_None _ _ _ He Ho).
Qed.

Lemma closed_erase h h' : erase h' = erase h -> closed h -> closed h'.
Proof.
  intros He Hc a o' Ho' Hty.
  destruct (erase_lookup _ _ _ _ (eq_sym He) Ho') as (o & Ho & Heq).
  rewrite <- !(valid_erase _ _ _ He).
  destruct (Hc a o Ho) as [H1 H2]; [by rewrite Heq|].
  rewrite Heq in H1, H2. done.
Qed.

Lemma reach_erase h h' a b : erase h' = erase h -> reach h a b -> reach h' a b.
Proof.
  intros He. induction 1 as [a|a b c o Ho Hty Hhd _ IH|a b c o Ho Hty Htl _ IH].
  - constructor.
  - destruct (erase_lookup _ _ _ _ He Ho) as (o' & Ho' & Heq).
    eapply reach_head; [exact Ho'|by rewrite Heq..|done].
  - destruct (erase_lookup _ _ _ _ He Ho) as (o' & Ho' & Heq).
    eapply reach_tail; [exact Ho'|by rewrite Heq..|done].
Qed.

Lemma reach_trans h a b c : reach h a b -> reach h b c -> reach h a c.
Proof.
  induction 1; intros; [done| |].
  - eapply reach_head; eauto.
  - eapply reach_tail; eauto.
Qed.

Lemma fields_marked_mono h h' a :
  erase h' = erase h -> (∀ b, is_marked h b -> is_marked h' b) ->
  fields_marked h a -> fields_marked h' a.
Proof.
  intros He Hmono Hf o' Ho' Hty.
  destruct (erase_lookup _ _ _ _ (eq_sym He) Ho') as (o & Ho & Heq).
  destruct (Hf o Ho) as (b & c & Hb & Hc & Mb & Mc).
  { rewrite Heq. done. }
  exists b, c. rewrite Heq in Hb, Hc. simpl in *. auto.
Qed.

Lemma is_marked_insert_ne h a b o :
  a ≠ b -> is_marked (<[a := o]> h) b ↔ is_marked h b.
Proof. intros Hne. unfold is_marked. by rewrite lookup_insert_ne. Qed.

Lemma mark_spec fuel : ∀ (U : gset addr) h p,
  (∀ a o, h !! a = Some o -> marked o = false -> a ∈ U) ->
  (size U < fuel)%nat ->
  match mark fuel p h with
  | Ret _ h' => mark_post h p h'
  | Undefined _ => ¬ (closed h ∧ valid h p = true)
  | _ => False
  end.
Proof.
  induction fuel as [|fuel IH]; intros U h p HU Hsz; [lia|].
  simpl. destruct p as [a|]; [|by intros [_ ?]].
  destruct (h !! a) as [o|] eqn:Ho; [|by simpl; rewrite Ho; intros [_ ?]].
  destruct (marked o) eqn:Hm.
  { (* already marked: nothing to do *)
    repeat split; eauto. exists a. split; [done|]. by exists o. }
  set (h1 := <[a := set_marked true o]> h).
  assert (He1 : erase h1 = erase h) by (by apply erase_insert_marked).
  assert (Hmono1 : ∀ b, is_marked h b -> is_marked h1 b).
  { intros b Hb. destruct (decide (a = b)) as [<-|Hne].
    - exists (set_marked true o). split; [apply lookup_insert_eq|done].
    - by apply is_marked_insert_ne. }
  assert (Ha1 : is_marked h1 a).
  { exists (set_marked true o). split; [apply lookup_insert_eq|done]. }
  assert (Hnew1 : ∀ b, is_marked h1 b -> b = a ∨ is_marked h b).
  { intros b Hb. destruct (decide (a = b)) as [<-|Hne]; [by left|].
    right. by apply is_marked_insert_ne in Hb. }
  destruct (objectType o) eqn:Hty.
  { (* an int: mark it and return *)
    repeat split; eauto.
    intros b Hb. destruct (Hnew1 b Hb) as [->|?]; [right|by left].
    split; [|exists a; split; [done|constructor]].
    intros o' Ho' Hty'. unfold h1 in Ho'. rewrite lookup_insert_eq in Ho'.
    injection Ho' as <-. simpl in Hty'. congruence. }
  (* a pair: mark it, then its head, then its tail *)
  set (U1 := U ∖ {[a]}).
  assert (HU1 : ∀ b o', h1 !! b = Some o' -> marked o' = false -> b ∈ U1).
  { intros b o' Hb Hmb. unfold h1 in Hb.
    destruct (decide (a = b)) as [<-|Hne].
    - rewrite lookup_insert_eq in Hb. injection Hb as <-. done.
    - rewrite lookup_insert_ne in Hb by done.
      apply elem_of_difference. split; [eauto|].
      by intros ->%elem_of_singleton. }
  assert (Hsz1 : (size U1 < fuel)%nat).
  { assert (size U1 < size U)%nat; [|lia].
    apply subset_size, subset_difference_elem_of. eauto. }
  unfold bind.
  specialize (IH U1 h1 (head o) HU1 Hsz1) as IH1.
  destruct (mark fuel (head o) h1) as [[] h2|?|f|]; try done.
  2:{ intros [Hc Hv]. apply IH1. split; [by eapply closed_erase|].
      rewrite <- (valid_erase _ _ _ He1). by apply (Hc a o). }
  destruct IH1 as (He2 & Hmono2 & (rh & Hrh & Mrh) & Hnew2).
  assert (HU2 : ∀ b o', h2 !! b = Some o' -> marked o' = false -> b ∈ U1).
  { intros b o2 Hb Hmb.
    destruct (erase_lookup _ _ _ _ (eq_sym He2) Hb) as (o1 & Ho1 & Heq).
    destruct (marked o1) eqn:Hm1.
    - destruct (Hmono2 b) as (o2' & Ho2' & Hm2'); [by exists o1|]. congruence.
    - eauto. }
  specialize (IH U1 h2 (tail o) HU2 Hsz1) as IH2.
  destruct (mark fuel (tail o) h2) as [[] h3|?|f|]; try done.
  2:{ intros [Hc Hv]. apply IH2. split.
      - eapply closed_erase; [|exact Hc]. congruence.
      - rewrite <- (valid_erase h h2) by congruence. by apply (Hc a o). }
  destruct IH2 as (He3 & Hmono3 & (rt & Hrt & Mrt) & Hnew3).
  assert (Hfa : fields_marked h3 a).
  { intros o3 Ho3 _.
    destruct (erase_lookup h3 h a o3) as (o0 & Ho0 & Heq); [congruence|done|].
    rewrite Ho in Ho0. injection Ho0 as <-.
    exists rh, rt. rewrite Heq in Hrh, Hrt. auto. }
  split; [congruence|]. split; [auto|]. split; [exists a; auto|].
  intros b Hb.
  destruct (Hnew3 b Hb) as [Hb2|[Hf (r & Hr & Hreach)]].
  - destruct (Hnew2 b Hb2) as [Hb1|[Hf (r & Hr & Hreach)]].
    + destruct (Hnew1 b Hb1) as [->|?]; [right|by left].
      split; [done|]. exists a. split; [done|constructor].
    + right. split; [by eapply fields_marked_mono|].
      exists a. split; [done|].
      eapply reach_head; eauto. by eapply reach_erase.
  - right. split; [done|]. exists a. split; [done|].
    eapply reach_tail; eauto. eapply reach_erase; [|done]. congruence.
Qed.

Lemma with_heap_with_heap h h' vm : with_heap h' (with_heap h vm) = with_heap h' vm.
Proof. done. Qed.

Lemma with_heap_id vm : with_heap (heap vm) vm = vm.
Proof. by destruct vm. Qed.

Lemma WF_stack_lookup vm i :
  WF vm -> 0 <= i < stackSize vm ->
  ∃ r o, stack vm !! Z.to_nat i = Some (Some r) ∧ heap vm !! r = Some o.
Proof.
  intros [_ _ _ [Hsz Hlen] Hroots] Hi.
  destruct (lookup_lt_is_Some_2 (stack vm) (Z.to_nat i)) as [p Hp]; [lia|].
  specialize (Hroots i p Hi Hp). apply valid_Some in Hroots as (r & o & -> & Ho).
  eauto.
Qed.

Lemma markAll_loop_S n i vm p :
  stack vm !! Z.to_nat i = Some p ->
  markAll_loop (S n) i vm =
  (on_heap (mark (mark_fuel (heap vm)) p) ;;; markAll_loop n (i + 1)) vm.
Proof. intros H. simpl. by rewrite H. Qed.

Lemma markAll_loop_spec vm : WF vm -> ∀ n i h,
  markAll_inv vm i h -> 0 <= i -> i + Z.of_nat n = stackSize vm ->
  ∃ h', markAll_loop n i (with_heap h vm) = Ret tt (with_heap h' vm) ∧
        markAll_inv vm (stackSize vm) h'.
Proof.
  intros Hwf. induction n as [|n IH]; intros i h Hinv Hi Hn.
  { exists h. split; [done|]. by replace (stackSize vm) with i by lia. }
  destruct Hinv as (He & Hroots & Hm).
  destruct (WF_stack_lookup vm i Hwf) as (r & o & Hr & Ho); [lia|].
  rewrite (markAll_loop_S _ _ _ (Some r)) by exact Hr.
  unfold bind, on_heap. change (heap (with_heap h vm)) with h.
  pose proof (mark_spec (mark_fuel h) (dom h) h (Some r)) as Hmark.
  destruct (mark (mark_fuel h) (Some r) h) as [[] h2|?|f|].
  - destruct Hmark as (He2 & Hmono & (r' & [= <-] & Mr) & Hnew).
    { intros a o' Ho' _. apply elem_of_dom. eauto. }
    { unfold mark_fuel. rewrite size_dom. lia. }
    rewrite with_heap_with_heap. apply IH; [|lia..].
    split; [congruence|]. split.
    + intros j r' Hj Hr'. destruct (decide (j = i)) as [->|Hne].
      * rewrite Hr in Hr'. by injection Hr' as <-.
      * apply Hmono. eapply Hroots; [|done]. lia.
    + intros a Ha. destruct (Hnew a Ha) as [Ha0|[Hf (r' & [= <-] & Hreach)]].
      * destruct (Hm a Ha0) as [Hf ?]. split; [|done].
        by eapply fields_marked_mono.
      * split; [done|]. exists r. split; [exists i; split; [lia|done]|].
        by eapply reach_erase.
  - exfalso. apply Hmark.
    + intros a o' Ho' _. apply elem_of_dom. eauto.
    + unfold mark_fuel. rewrite size_dom. lia.
  - exfalso. apply Hmark.
    + intros a o' Ho' _. apply elem_of_dom. eauto.
    + unfold mark_fuel. rewrite size_dom. lia.
    + split.
      * eapply closed_erase; [exact He|]. apply Hwf.
      * rewrite <- (valid_erase _ _ _ He). simpl. by rewrite Ho.
  - exfalso. apply Hmark.
    + intros a o' Ho' _. apply elem_of_dom. eauto.
    + unfold mark_fuel. rewrite size_dom. lia.
Qed.

Lemma markAll_spec vm : WF vm ->
  ∃ h', markAll vm = Ret tt (with_heap h' vm) ∧
        erase h' = erase (heap vm) ∧
        (∀ a, is_marked h' a ↔ reachable vm a).
Proof.
  intros Hwf.
  destruct (markAll_loop_spec vm Hwf (Z.to_nat (stackSize vm)) 0 (heap vm))
    as (h' & Hrun & He & Hroots & Hm).
  { split; [done|]. split; [intros; lia|].
    intros a (o & Ho & Hmo). pose proof (WF_unmarked _ Hwf a o Ho). congruence. }
  { lia. }
  { pose proof (WF_size _ Hwf). lia. }
  exists h'. rewrite with_heap_id in Hrun. split; [done|]. split; [done|].
  intros a. split; [apply Hm|].
  intros (r & (i & Hi & Hr) & Hreach).
  assert (Mr : is_marked h' r) by eauto.
  clear Hr. induction Hreach as [a|a b c o Ho Hty Hhd _ IH|a b c o Ho Hty Htl _ IH];
    [done|apply IH|apply IH].
  - destruct (erase_lookup _ _ _ _ He Ho) as (o' & Ho' & Heq).
    destruct (Hm a Mr) as [Hf _].
    destruct (Hf o' Ho') as (b' & c' & Hb' & _ & Mb & _); [by rewrite Heq|].
    rewrite Heq in Hb'. simpl in Hb'. congruence.
  - destruct (erase_lookup _ _ _ _ He Ho) as (o' & Ho' & Heq).
    destruct (Hm a Mr) as [Hf _].
    destruct (Hf o' Ho') as (b' & c' & _ & Hc' & _ & Mc); [by rewrite Heq|].
    rewrite Heq in Hc'. simpl in Hc'. congruence.
Qed.

(** ** Sweeping *)

Lemma set_next_id o : set_next (next o) o = o.
Proof. by destruct o. Qed.

Lemma kept_ext (h h' : Heap) l :
  (∀ a, a ∈ l -> h' !! a = h !! a) -> kept h' l = kept h l.
Proof.
  unfold kept. induction l as [|a l IH]; intros Hext; [done|].
  rewrite !filter_cons, IH by (intros b Hb; by apply Hext, list_elem_of_further).
  assert (markedb h' a = markedb h a) as ->; [|done].
  unfold markedb. by rewrite (Hext a) by apply list_elem_of_here.
Qed.

Lemma kept_cons h a o l :
  h !! a = Some o ->
  kept h (a :: l) = if marked o then a :: kept h l else kept h l.
Proof.
  intros Ho. unfold kept. rewrite filter_cons.
  assert (markedb h a = marked o) as E by (unfold markedb; by rewrite Ho).
  destruct (marked o); case_decide; congruence.
Qed.

Lemma sweep_loop_spec l : ∀ fuel object vm cur,
  load object vm = Some cur -> chain (heap vm) cur l -> NoDup l ->
  (∀ b, object = NextOf b -> b ∉ l) -> (length l < fuel)%nat ->
  ∃ vm', sweep_loop fuel object vm = Ret tt vm' ∧ sweep_post l object vm vm'.
Proof.
  induction l as [|a l IH]; intros [|fuel] object vm cur Hload Hchain Hnd Hown Hlen;
    simpl in Hlen; try lia.
  { simpl in Hchain. subst cur. exists vm. simpl. rewrite Hload.
    split; [done|]. split; [done|]. split; [by exists None|].
    split; [by intros ? ? ?%not_elem_of_nil|].
    split; [by intros ? ? ?%not_elem_of_nil|]. split; [done|].
    intros b o _ Hb. split; [done|]. exists o. by rewrite set_next_id. }
  destruct Hchain as [-> (o & Ho & Hchain)].
  apply NoDup_cons in Hnd as [Hal Hnd].
  assert (Hneq : ∀ b, object = NextOf b -> b ≠ a ∧ b ∉ l).
  { intros b Hb. specialize (Hown b Hb). rewrite not_elem_of_cons in Hown. done. }
  simpl. rewrite Hload, Ho.
  destruct (marked o) eqn:Hm; simpl.
  - (* reached: unmark it and move the cursor to its [next] field *)
    set (vm1 := with_heap (<[a := set_marked false o]> (heap vm)) vm).
    assert (Hsame : ∀ x, x ≠ a -> heap vm1 !! x = heap vm !! x).
    { intros x Hx. simpl. by rewrite lookup_insert_ne. }
    destruct (IH fuel (NextOf a) vm1 (next o))
      as (vm' & Hrun & Hf & (cur' & Hcur' & Hc') & Hkeep & Hfree & Hrest & Hslot);
      [by simpl; rewrite lookup_insert_eq| |done|by intros ? [= <-]|lia|].
    { eapply chain_ext; [|exact Hchain]. intros x Hx. rewrite Hsame; [done|].
      by intros ->. }
    destruct (Hslot a (set_marked false o) eq_refl) as (Hfirst & o' & Ho' & Heq);
      [by simpl; rewrite lookup_insert_eq|].
    assert (Hfilter : kept (heap vm1) l = kept (heap vm) l).
    { apply kept_ext. intros x Hx. apply Hsame. by intros ->. }
    exists vm'. split; [done|]. split; [by destruct Hf as (-> & -> & -> & ->)|].
    split.
    { exists (Some a). split.
      - destruct object as [|b]; simpl in *.
        + rewrite Hfirst. done.
        + destruct (Hneq b eq_refl) as [Hba Hbl].
          rewrite Hrest, Hsame; [done..|by intros [= ->]].
      - rewrite (kept_cons _ _ _ _ Ho), Hm. simpl. split; [done|].
        exists o'. split; [done|]. simpl in Hcur'. rewrite Ho' in Hcur'.
        injection Hcur' as <-. by rewrite <- Hfilter. }
    split.
    { intros x ox [->|Hx]%elem_of_cons Hox Hmx.
      - rewrite Ho in Hox. injection Hox as <-. eauto.
      - eapply Hkeep; [done| |done]. rewrite Hsame; [done|]. by intros ->. }
    split.
    { intros x ox [->|Hx]%elem_of_cons Hox Hmx.
      - congruence.
      - eapply Hfree; [done| |done]. rewrite Hsame; [done|]. by intros ->. }
    split.
    { intros x [Hxa Hxl]%not_elem_of_cons Hxo.
      rewrite Hrest, Hsame; [done..|]. simpl. congruence. }
    intros b ob -> Hob. destruct (Hneq b eq_refl) as [Hba Hbl].
    split; [by rewrite Hfirst|]. exists ob.
    rewrite Hrest, Hsame, set_next_id; [done..|]. simpl. congruence.
  - (* not reached: unlink it and free it; the cursor stays *)
    set (vm1 := free a (store object (next o) vm)).
    assert (Hsame : ∀ x, x ≠ a -> slot_ptr object ≠ Some x ->
                         heap vm1 !! x = heap vm !! x).
    { intros x Hx Hox. unfold vm1, free. simpl. rewrite lookup_delete_ne by done.
      destruct object as [|b]; simpl; [done|].
      rewrite lookup_alter_ne; [done|]. simpl in Hox. congruence. }
    assert (Hsamel : ∀ x, x ∈ l -> heap vm1 !! x = heap vm !! x).
    { intros x Hx. apply Hsame; [by intros ->|].
      destruct object as [|b]; [done|]. simpl. intros [= ->].
      by destruct (Hneq x eq_refl). }
    destruct (IH fuel object vm1 (next o))
      as (vm' & Hrun & Hf & (cur' & Hcur' & Hc') & Hkeep & Hfree & Hrest & Hslot);
      [|by eapply chain_ext; [|exact Hchain]; intros x Hx; rewrite Hsamel
       |done|by intros b Hb; apply Hneq|lia|].
    { destruct object as [|b]; simpl in *; [done|].
      destruct (Hneq b eq_refl) as [Hba Hbl].
      rewrite lookup_delete_ne, lookup_alter_eq by done.
      destruct (heap vm !! b); by simpl in *. }
    assert (Hfilter : kept (heap vm1) l = kept (heap vm) l)
      by (by apply kept_ext).
    exists vm'. split; [done|].
    split; [by destruct Hf as (-> & -> & -> & ->); destruct object|].
    split.
    { exists cur'. split; [done|]. rewrite (kept_cons _ _ _ _ Ho), Hm.
      by rewrite <- Hfilter. }
    split.
    { intros x ox [->|Hx]%elem_of_cons Hox Hmx; [congruence|].
      eapply Hkeep; [done| |done]. by rewrite Hsamel. }
    split.
    { intros x ox [->|Hx]%elem_of_cons Hox Hmx.
      - rewrite Hrest; [|done|].
        + unfold vm1, free. simpl. apply lookup_delete_eq.
        + destruct object as [|b]; [done|]. simpl. intros [= Hb].
          by destruct (Hneq b eq_refl).
      - eapply Hfree; [done| |done]. by rewrite Hsamel. }
    split.
    { intros x [Hxa Hxl]%not_elem_of_cons Hxo. rewrite Hrest, Hsame; done. }
    intros b ob -> Hob. destruct (Hneq b eq_refl) as [Hba Hbl].
    destruct (Hslot b (set_next (next o) ob) eq_refl) as (Hfirst & o' & Ho' & Heq).
    { simpl. rewrite lookup_delete_ne, lookup_alter_eq, Hob by done. done. }
    split; [done|]. exists o'. split; [done|]. rewrite Heq. by destruct ob.
Qed.

(** ** The collector *)

Lemma markedb_is_marked h a : markedb h a = true ↔ is_marked h a.
Proof.
  unfold markedb, is_marked. split.
  - destruct (h !! a) as [o|]; [eauto|done].
  - by intros (o & -> & ->).
Qed.

Lemma reachable_valid vm a : WF vm -> reachable vm a -> is_Some (heap vm !! a).
Proof.
  intros Hwf (r & (i & Hi & Hr) & Hreach).
  assert (is_Some (heap vm !! r)) as Hv.
  { apply (WF_roots _ Hwf) in Hr; [|done].
    apply valid_Some in Hr as (? & o & [= <-] & ->). eauto. }
  clear Hr. induction Hreach as [a|a b c o Ho Hty Hhd _ IH|a b c o Ho Hty Htl _ IH];
    [done|apply IH|apply IH].
  - destruct (WF_closed _ Hwf a o Ho Hty) as [Hb _].
    apply valid_Some in Hb as (x & ob & E & Hx). rewrite Hhd in E.
    injection E as <-. eauto.
  - destruct (WF_closed _ Hwf a o Ho Hty) as [_ Hb].
    apply valid_Some in Hb as (x & ob & E & Hx). rewrite Htl in E.
    injection E as <-. eauto.
Qed.

Lemma gc_spec vm : WF vm -> ∃ vm', gc vm = Ret tt vm' ∧ gc_post vm vm'.
Proof.
  intros Hwf.
  destruct (markAll_spec vm Hwf) as (hm & Hmark & He & Hreach).
  destruct (WF_chain _ Hwf) as (l & Hchain & Hnd & Hall).
  set (vmm := with_heap hm vm).
  assert (Hchainm : chain (heap vmm) (firstObject vm) l).
  { eapply chain_ext; [|exact Hchain]. intros a Ha. simpl.
    destruct (chain_elem _ _ _ _ Hchain Ha) as [o Ho].
    destruct (erase_lookup _ _ _ _ He Ho) as (o' & -> & ->). by rewrite Ho. }
  assert (Hlen : (length l < S (size (heap vmm)))%nat).
  { pose proof (chain_length _ _ _ Hchain Hnd) as Hl.
    assert (size hm = size (heap vm)) as E.
    { rewrite <- (map_size_fmap (set_marked false) hm).
      rewrite <- (map_size_fmap (set_marked false) (heap vm)). by f_equal. }
    simpl. lia. }
  destruct (sweep_loop_spec l (S (size (heap vmm))) FirstObject vmm (firstObject vm))
    as (vms & Hsweep & Hf & (cur' & Hcur' & Hc') & Hkeep & Hfree & Hrest & _);
    [done|done|done|done|done|].
  simpl in Hcur'. injection Hcur' as <-.
  exists (with_maxObjects (int_wrap (numObjects vms * 2)) vms). split.
  { unfold gc, bind. rewrite Hmark. fold vmm. unfold sweep. by rewrite Hsweep. }
  destruct Hf as (Hs1 & Hs2 & Hs3 & Hs4). simpl in *.
  assert (Hget : ∀ a o, heap vm !! a = Some o ->
            ∃ om, hm !! a = Some om ∧ om = set_marked (marked om) o ∧ a ∈ l).
  { intros a o Ho. destruct (erase_lookup _ _ _ _ He Ho) as (om & Hom & Heq).
    exists om. split; [done|]. split; [done|]. apply Hall. eauto. }
  assert (Hunm : ∀ a o, heap vm !! a = Some o -> set_marked false o = o).
  { intros a o Ho. rewrite <- (WF_unmarked _ Hwf a o Ho). by destruct o. }
  split; [by rewrite Hs3|]. split.
  { intros a o Ho Hr. destruct (Hget a o Ho) as (om & Hom & Heq & Hal).
    apply Hreach in Hr as (om' & Hom' & Hm). rewrite Hom in Hom'.
    injection Hom' as <-.
    destruct (Hkeep a om Hal Hom Hm) as (o' & Ho' & Heq').
    exists o'. split; [done|]. rewrite Heq' at 1. f_equal.
    rewrite Heq. rewrite <- (Hunm a o Ho). by destruct o. }
  split.
  { intros a Hnr. destruct (heap vm !! a) as [o|] eqn:Ho.
    - destruct (Hget a o Ho) as (om & Hom & Heq & Hal).
      apply (Hfree a om Hal Hom). destruct (marked om) eqn:Hm; [|done].
      exfalso. apply Hnr, Hreach. by exists om.
    - rewrite Hrest; [by eapply erase_lookup_None| |done].
      intros Hal. destruct (chain_elem _ _ _ _ Hchain Hal). congruence. }
  assert (Hback : ∀ a o', heap vms !! a = Some o' ->
     a ∈ kept hm l ∧ reachable vm a ∧
     ∃ o, heap vm !! a = Some o ∧ o' = set_next (next o') o).
  { intros a o' Ho'. destruct (heap vm !! a) as [o|] eqn:Ho.
    - destruct (Hget a o Ho) as (om & Hom & Heq & Hal).
      destruct (marked om) eqn:Hm.
      + destruct (Hkeep a om Hal Hom Hm) as (o'' & Ho'' & Heq').
        rewrite Ho' in Ho''. injection Ho'' as <-.
        split; [|split].
        * apply list_elem_of_filter. split; [|done].
          apply markedb_is_marked. by exists om.
        * apply Hreach. by exists om.
        * exists o. split; [done|]. rewrite Heq' at 1. f_equal.
          rewrite Heq. rewrite <- (Hunm a o Ho). by destruct o.
      + rewrite (Hfree a om Hal Hom Hm) in Ho'. done.
    - rewrite Hrest in Ho'; [|intros Hal|done].
      + rewrite (erase_lookup_None _ _ _ He Ho) in Ho'. done.
      + destruct (chain_elem _ _ _ _ Hchain Hal). congruence. }
  split; [intros a o' Ho'; by destruct (Hback a o' Ho') as (_ & ? & ?)|].
  exists l, (kept hm l). split; [done|]. split; [done|].
  split; [by apply NoDup_filter|]. split; [apply sublist_filter|].
  intros a. split.
  - intros Ha. eapply chain_elem; [exact Hc'|done].
  - intros [o' Ho']. by destruct (Hback a o' Ho').
Qed.

Lemma reachable_root vm i r :
  0 <= i < stackSize vm -> stack vm !! Z.to_nat i = Some (Some r) -> reachable vm r.
Proof. intros Hi Hr. exists r. split; [by exists i|constructor]. Qed.

Lemma reachable_head vm a o b :
  reachable vm a -> heap vm !! a = Some o -> objectType o = PAIR_TYPE ->
  head o = Some b -> reachable vm b.
Proof.
  intros (r & Hr & Hreach) Ho Hty Hhd. exists r. split; [done|].
  eapply reach_trans; [exact Hreach|]. eapply reach_head; eauto. constructor.
Qed.

Lemma reachable_tail vm a o b :
  reachable vm a -> heap vm !! a = Some o -> objectType o = PAIR_TYPE ->
  tail o = Some b -> reachable vm b.
Proof.
  intros (r & Hr & Hreach) Ho Hty Htl. exists r. split; [done|].
  eapply reach_trans; [exact Hreach|]. eapply reach_tail; eauto. constructor.
Qed.

(** A collection takes a well-formed state to a well-formed state. *)
Lemma gc_WF vm vm' : WF vm -> gc_post vm vm' -> WF vm'.
Proof.
  intros Hwf ((Hs1 & Hs2 & Hs3 & Hs4) & Hkeep & Hfree & Hback & l & l' & Hl & Hl' & Hnd & _ & Hall).
  assert (Hv : ∀ a p, reachable vm a -> valid (heap vm) p = true ->
                 (∀ b, p = Some b -> reachable vm b) -> valid (heap vm') p = true).
  { intros a p Ha Hp Hb. apply valid_Some in Hp as (b & ob & -> & Hob).
    destruct (Hkeep b ob Hob (Hb b eq_refl)) as (ob' & Hob' & _).
    apply valid_Some. eauto. }
  split.
  - exists l'. split; [done|]. split; [done|]. intros a. apply Hall.
  - intros a o' Ho'. destruct (Hback a o' Ho') as (_ & o & Ho & ->). simpl.
    by apply (WF_unmarked _ Hwf a).
  - intros a o' Ho' Hty. destruct (Hback a o' Ho') as (Hr & o & Ho & Heq).
    rewrite Heq in Hty |- *. simpl in *.
    destruct (WF_closed _ Hwf a o Ho Hty) as [Hh Ht]. split.
    + eapply Hv; [exact Hr|done|]. intros b Hb. by eapply reachable_head.
    + eapply Hv; [exact Hr|done|]. intros b Hb. by eapply reachable_tail.
  - rewrite Hs1, Hs2. apply Hwf.
  - rewrite Hs1, Hs2. intros i p Hi Hp.
    pose proof (WF_roots _ Hwf i p Hi Hp) as Hvp.
    apply valid_Some in Hvp as (r & o & -> & Ho).
    destruct (Hkeep r o Ho) as (o' & Ho' & _); [by eapply reachable_root|].
    apply valid_Some. eauto.
Qed.

Lemma WF_wf vm : WF vm -> wf vm = true.
Proof.
  intros [(l & Hc & Hnd & Hall) Hunm Hcl [Hsz Hlen] Hroots].
  unfold wf, chain_ok, heap_ok, stack_ok, registry.
  rewrite (chain_walk _ _ _ l Hc) by (by eapply chain_length).
  rewrite !andb_true_iff, !forallb_forall. repeat split.
  - by apply bool_decide_eq_true.
  - intros [a o] Hin%list_elem_of_In%elem_of_map_to_list. simpl.
    apply bool_decide_eq_true, Hall. eauto.
  - intros [a o] Hin%list_elem_of_In%elem_of_map_to_list. simpl.
    unfold obj_ok. rewrite (Hunm a o Hin). simpl.
    destruct (objectType o) eqn:Hty; [done|].
    destruct (Hcl a o Hin Hty) as [-> ->]. done.
  - lia.
  - lia.
  - lia.
  - intros p Hin%list_elem_of_In%list_elem_of_lookup. destruct Hin as [i Hi].
    pose proof (lookup_lt_Some _ _ _ Hi) as Hlt. rewrite length_take in Hlt.
    rewrite lookup_take_lt in Hi by lia.
    apply (Hroots (Z.of_nat i)); [lia|]. by rewrite Nat2Z.id.
Qed.

(** ** Allocation *)

Lemma malloc_fresh (h : Heap) : h !! malloc h = None.
Proof. apply not_elem_of_dom. unfold malloc. apply is_fresh. Qed.

Lemma valid_insert h a o p :
  valid h p = true -> valid (<[a := o]> h) p = true.
Proof.
  intros (b & ob & -> & Hb)%valid_Some. simpl.
  destruct (decide (a = b)) as [->|Hne].
  - by rewrite lookup_insert_eq.
  - by rewrite lookup_insert_ne, Hb.
Qed.

(** Linking a new unmarked object with valid fields at the head of the
    registry keeps the state well formed, whatever valid stack comes
    with it. *)
Lemma WF_alloc vm o stk n num max :
  WF vm ->
  marked o = false -> next o = firstObject vm ->
  (objectType o = PAIR_TYPE ->
     valid (heap vm) (head o) = true ∧ valid (heap vm) (tail o) = true) ->
  0 <= n <= STACK_MAX_SIZE -> Z.of_nat (length stk) = STACK_MAX_SIZE ->
  (∀ i p, 0 <= i < n -> stk !! Z.to_nat i = Some p ->
     valid (<[malloc (heap vm) := o]> (heap vm)) p = true) ->
  WF (mkVM stk n num max (Some (malloc (heap vm))) (<[malloc (heap vm) := o]> (heap vm))).
Proof.
  intros [(l & Hc & Hnd & Hall) Hunm Hcl _ _] Hm Hnext Hfields Hn Hlen Hstk.
  pose proof (malloc_fresh (heap vm)) as Hfresh.
  set (a := malloc (heap vm)) in *.
  assert (Hal : a ∉ l).
  { intros Hal. destruct (chain_elem _ _ _ _ Hc Hal). congruence. }
  split; simpl.
  - exists (a :: l). split; [|split].
    + simpl. split; [done|]. exists o. rewrite lookup_insert_eq. split; [done|].
      rewrite Hnext. eapply chain_ext; [|exact Hc].
      intros b Hb. rewrite lookup_insert_ne; [done|]. by intros ->.
    + by apply NoDup_cons.
    + intros b [ob Hb]. destruct (decide (a = b)) as [->|Hne].
      * apply list_elem_of_here.
      * rewrite lookup_insert_ne in Hb by done.
        apply list_elem_of_further, Hall. eauto.
  - intros b ob Hb. destruct (decide (a = b)) as [->|Hne].
    + rewrite lookup_insert_eq in Hb. by injection Hb as <-.
    + rewrite lookup_insert_ne in Hb by done. eauto.
  - intros b ob Hb Hty. destruct (decide (a = b)) as [->|Hne].
    + rewrite lookup_insert_eq in Hb. injection Hb as <-.
      destruct (Hfields Hty). split; by apply valid_insert.
    + rewrite lookup_insert_ne in Hb by done.
      destruct (Hcl b ob Hb Hty). split; by apply valid_insert.
  - done.
  - done.
Qed.

(** The collection that [newObject] runs when the threshold is met. *)
Lemma newObject_gc vm : WF vm ->
  ∃ vm1,
    (if numObjects vm =? maxObjects vm then gc vm else Ret tt vm) = Ret tt vm1 ∧
    (if numObjects vm =? maxObjects vm then gc_post vm vm1 else vm1 = vm) ∧
    WF vm1 ∧ stack vm1 = stack vm ∧ stackSize vm1 = stackSize vm ∧
    numObjects vm1 = numObjects vm.
Proof.
  intros Hwf. destruct (numObjects vm =? maxObjects vm).
  - destruct (gc_spec vm Hwf) as (vm1 & Hgc & Hpost).
    exists vm1. split; [done|]. split; [done|]. split; [by eapply gc_WF|].
    by destruct Hpost as ((? & ? & ? & _) & _).
  - by exists vm.
Qed.

Lemma newObject_spec ty vm : WF vm ->
  ∃ vm1,
    (if numObjects vm =? maxObjects vm then gc_post vm vm1 else vm1 = vm) ∧
    WF vm1 ∧ stack vm1 = stack vm ∧ stackSize vm1 = stackSize vm ∧
    newObject ty vm =
      Ret (malloc (heap vm1))
          (mkVM (stack vm) (stackSize vm) (int_wrap (numObjects vm + 1))
                (maxObjects vm1) (Some (malloc (heap vm1)))
                (<[malloc (heap vm1) := mkObject ty false (firstObject vm1) 0 NULL NULL]>
                   (heap vm1))).
Proof.
  intros Hwf.
  destruct (newObject_gc vm Hwf) as (vm1 & Hrun & Hpost & Hwf1 & Hs & Hn & Hnum).
  exists vm1. split; [done|]. split; [done|]. split; [done|]. split; [done|].
  unfold newObject, bind. rewrite Hrun.
  unfold with_numObjects, with_firstObject, with_heap. simpl.
  by rewrite Hs, Hn, Hnum.
Qed.

(** ** Stack manipulation *)

Lemma push_Ret value vm :
  0 <= stackSize vm < STACK_MAX_SIZE ->
  Z.of_nat (length (stack vm)) = STACK_MAX_SIZE ->
  push value vm =
    Ret tt (with_stack (<[Z.to_nat (stackSize vm) := value]> (stack vm))
                       (stackSize vm + 1) vm).
Proof.
  intros Hn Hlen. unfold push.
  destruct (Z.gtb_spec (stackSize vm) STACK_MAX_SIZE); [lia|].
  destruct (Z.leb_spec 0 (stackSize vm)); [|lia].
  destruct (Z.ltb_spec (stackSize vm) (Z.of_nat (length (stack vm)))); [done|lia].
Qed.

Lemma pop_Ret vm :
  0 < stackSize vm <= STACK_MAX_SIZE ->
  Z.of_nat (length (stack vm)) = STACK_MAX_SIZE ->
  ∃ p, stack vm !! Z.to_nat (stackSize vm - 1) = Some p ∧
       pop vm = Ret p (with_stackSize (stackSize vm - 1) vm).
Proof.
  intros Hn Hlen. unfold pop.
  destruct (Z.gtb_spec (stackSize vm) 0); [|lia]. simpl.
  destruct (lookup_lt_is_Some_2 (stack vm) (Z.to_nat (stackSize vm - 1)))
    as [p Hp]; [lia|].
  exists p. by rewrite Hp.
Qed.

Lemma pop_Exit vm : stackSize vm <= 0 -> pop vm = Exit StackUnderflow vm.
Proof.
  intros Hn. unfold pop. destruct (Z.gtb_spec (stackSize vm) 0); [lia|done].
Qed.

(** ** Pushing ints and pairs *)

Ltac step_pop :=
  match goal with
  | |- context [pop ?s] =>
      let p := fresh "p" in
      let Hp := fresh "Hp" in
      let Hpop := fresh "Hpop" in
      destruct (pop_Ret s) as (p & Hp & Hpop);
      [simpl; lia | simpl; lia | rewrite Hpop; simpl in Hp]
  end.

Ltac step_push :=
  match goal with
  | |- context [push ?v ?s] => rewrite (push_Ret v s) by (simpl; lia)
  end.

Lemma pushInt_spec intValue vm :
  WF vm -> stackSize vm < STACK_MAX_SIZE ->
  ∃ vm1,
    (if numObjects vm =? maxObjects vm then gc_post vm vm1 else vm1 = vm) ∧
    WF vm1 ∧ stack vm1 = stack vm ∧ stackSize vm1 = stackSize vm ∧
    pushInt intValue vm =
      Ret tt
        (mkVM (<[Z.to_nat (stackSize vm) := Some (malloc (heap vm1))]> (stack vm))
              (stackSize vm + 1) (int_wrap (numObjects vm + 1))
              (maxObjects vm1) (Some (malloc (heap vm1)))
              (<[malloc (heap vm1) :=
                   mkObject INT_TYPE false (firstObject vm1) intValue NULL NULL]>
                 (heap vm1))).
Proof.
  intros Hwf Hn. pose proof (WF_size _ Hwf) as [Hsz Hlen].
  destruct (newObject_spec INT_TYPE vm Hwf) as (vm1 & Hgc & Hwf1 & Hs & Hsn & Hnew).
  exists vm1. split; [done|]. split; [done|]. split; [done|]. split; [done|].
  unfold pushInt, bind. rewrite Hnew.
  unfold assign. simpl. rewrite lookup_insert_eq.
  step_push. unfold with_stack, with_heap. simpl.
  by rewrite insert_insert_eq.
Qed.

Lemma pushPair_spec vm :
  WF vm -> 2 <= stackSize vm ->
  ∃ vm1 h t,
    (if numObjects vm =? maxObjects vm then gc_post vm vm1 else vm1 = vm) ∧
    WF vm1 ∧ stack vm1 = stack vm ∧ stackSize vm1 = stackSize vm ∧
    stack vm !! Z.to_nat (stackSize vm - 2) = Some h ∧
    stack vm !! Z.to_nat (stackSize vm - 1) = Some t ∧
    pushPair vm =
      Ret (malloc (heap vm1))
        (mkVM (<[Z.to_nat (stackSize vm - 2) := Some (malloc (heap vm1))]> (stack vm))
              (stackSize vm - 1) (int_wrap (numObjects vm + 1))
              (maxObjects vm1) (Some (malloc (heap vm1)))
              (<[malloc (heap vm1) :=
                   mkObject PAIR_TYPE false (firstObject vm1) 0 h t]>
                 (heap vm1))).
Proof.
  intros Hwf Hn. pose proof (WF_size _ Hwf) as [Hsz Hlen].
  destruct (newObject_spec PAIR_TYPE vm Hwf) as (vm1 & Hgc & Hwf1 & Hs & Hsn & Hnew).
  unfold pushPair, bind. rewrite Hnew.
  step_pop. unfold assign. simpl. rewrite lookup_insert_eq.
  step_pop. simpl. rewrite lookup_insert_eq.
  step_push. unfold ret, with_stack, with_heap. simpl.
  replace (stackSize vm - 1 - 1) with (stackSize vm - 2) in * by lia.
  replace (stackSize vm - 2 + 1) with (stackSize vm - 1) by lia.
  rewrite !insert_insert_eq.
  exists vm1, p0, p. done.
Qed.

(** With a full stack the guard of [push] lets the call through and the
    store goes to [stack[STACK_MAX_SIZE]]. *)
Lemma push_full value vm :
  stackSize vm = STACK_MAX_SIZE ->
  Z.of_nat (length (stack vm)) = STACK_MAX_SIZE ->
  push value vm = Undefined (OutOfBounds STACK_MAX_SIZE).
Proof.
  intros Hn Hlen. unfold push. rewrite Hn, Hlen.
  by rewrite Z.ltb_irrefl, andb_false_r.
Qed.

Lemma pushInt_full intValue vm :
  WF vm -> stackSize vm = STACK_MAX_SIZE ->
  pushInt intValue vm = Undefined (OutOfBounds STACK_MAX_SIZE).
Proof.
  intros Hwf Hn. pose proof (WF_size _ Hwf) as [Hsz Hlen].
  destruct (newObject_spec INT_TYPE vm Hwf) as (vm1 & Hgc & Hwf1 & Hs & Hsn & Hnew).
  unfold pushInt, bind. rewrite Hnew.
  unfold assign. simpl. rewrite lookup_insert_eq.
  by apply push_full.
Qed.

(** The state in which [pushPair] exits when the stack is too short:
    the new pair is registered and, if there was an entry, it is popped. *)
Lemma pushPair_underflow vm :
  WF vm -> stackSize vm < 2 ->
  ∃ vm1 t,
    (if numObjects vm =? maxObjects vm then gc vm else Ret tt vm) = Ret tt vm1 ∧
    pushPair vm =
      Exit StackUnderflow
        (mkVM (stack vm) 0 (int_wrap (numObjects vm + 1))
              (maxObjects vm1) (Some (malloc (heap vm1)))
              (<[malloc (heap vm1) :=
                   mkObject PAIR_TYPE false (firstObject vm1) 0 NULL t]>
                 (heap vm1))).
Proof.
  intros Hwf Hn. pose proof (WF_size _ Hwf) as [Hsz Hlen].
  destruct (newObject_gc vm Hwf) as (vm1 & Hrun & _ & _ & Hs & Hsn & Hnum).
  exists vm1. unfold pushPair, newObject, bind. rewrite Hrun.
  unfold with_numObjects, with_firstObject, with_heap. simpl.
  rewrite Hs, Hsn, Hnum.
  destruct (decide (stackSize vm = 0)) as [H0|H0].
  - exists NULL. split; [done|]. rewrite pop_Exit by (simpl; lia). by rewrite H0.
  - step_pop. exists p. split; [done|].
    unfold assign. simpl. rewrite lookup_insert_eq.
    rewrite pop_Exit by (simpl; lia). unfold with_heap. simpl.
    rewrite insert_insert_eq. by replace (stackSize vm - 1) with 0 by lia.
Qed.

(** ** Every operation keeps the state well formed *)

Lemma pushInt_WF intValue vm vm' :
  WF vm -> pushInt intValue vm = Ret tt vm' -> WF vm'.
Proof.
  intros Hwf Hrun. pose proof (WF_size _ Hwf) as [Hsz Hlen].
  destruct (decide (stackSize vm = STACK_MAX_SIZE)) as [Hfull|Hfull].
  { by rewrite pushInt_full in Hrun. }
  destruct (pushInt_spec intValue vm Hwf) as (vm1 & _ & Hwf1 & Hs & Hsn & Heq); [lia|].
  rewrite Heq in Hrun. injection Hrun as <-.
  apply WF_alloc; try done; [lia|by rewrite length_insert|].
  intros i p Hi. destruct (decide (i = stackSize vm)) as [->|Hne].
  - rewrite list_lookup_insert_eq by lia. intros [= <-]. simpl.
    by rewrite lookup_insert_eq.
  - rewrite list_lookup_insert_ne by lia. intros Hp.
    apply valid_insert, (WF_roots _ Hwf1 i); [lia|by rewrite Hs].
Qed.

Lemma pushPair_WF vm a vm' :
  WF vm -> pushPair vm = Ret a vm' -> WF vm'.
Proof.
  intros Hwf Hrun. pose proof (WF_size _ Hwf) as [Hsz Hlen].
  destruct (decide (stackSize vm < 2)) as [Hfew|Hfew].
  { destruct (pushPair_underflow vm Hwf Hfew) as (? & ? & _ & Heq). congruence. }
  destruct (pushPair_spec vm Hwf) as (vm1 & h & t & _ & Hwf1 & Hs & Hsn & Hh & Ht & Heq);
    [lia|].
  rewrite Heq in Hrun. injection Hrun as <- <-.
  apply WF_alloc; try done; [|lia|by rewrite length_insert|].
  - intros _. simpl. split.
    + apply (WF_roots _ Hwf1 (stackSize vm - 2)); [lia|by rewrite Hs].
    + apply (WF_roots _ Hwf1 (stackSize vm - 1)); [lia|by rewrite Hs].
  - intros i p Hi. destruct (decide (i = stackSize vm - 2)) as [->|Hne].
    + rewrite list_lookup_insert_eq by lia. intros [= <-]. simpl.
      by rewrite lookup_insert_eq.
    + rewrite list_lookup_insert_ne by lia. intros Hp.
      apply valid_insert, (WF_roots _ Hwf1 i); [lia|by rewrite Hs].
Qed.

Lemma pop_WF vm p vm' : WF vm -> pop vm = Ret p vm' -> WF vm'.
Proof.
  intros Hwf Hrun. pose proof (WF_size _ Hwf) as [Hsz Hlen].
  destruct (decide (stackSize vm <= 0)) as [H0|H0].
  { by rewrite pop_Exit in Hrun. }
  destruct (pop_Ret vm) as (q & Hq & Heq); [lia|done|].
  rewrite Heq in Hrun. injection Hrun as <- <-.
  destruct Hwf as [Hc Hu Hcl _ Hr]. split; simpl; try done; [lia|].
  intros i p Hi. apply Hr. lia.
Qed.

Lemma gc_WF_Ret vm vm' : WF vm -> gc vm = Ret tt vm' -> WF vm'.
Proof.
  intros Hwf Hrun. destruct (gc_spec vm Hwf) as (vm2 & Hgc & Hpost).
  rewrite Hgc in Hrun. injection Hrun as <-. by eapply gc_WF.
Qed.

(** ** The registry as a list *)

Lemma chain_NoDup_registry vm l :
  chain (heap vm) (firstObject vm) l -> NoDup l -> registry vm = Some l.
Proof. intros Hc Hnd. apply chain_walk; [done|]. by eapply chain_length. Qed.

Lemma WF_registry vm : WF vm ->
  ∃ l, registry vm = Some l ∧ NoDup l ∧ ∀ a, a ∈ l ↔ is_Some (heap vm !! a).
Proof.
  intros Hwf. destruct (WF_chain _ Hwf) as (l & Hc & Hnd & Hall).
  exists l. split; [by apply chain_NoDup_registry|]. split; [done|].
  intros a. split; [by eapply chain_elem|apply Hall].
Qed.

Lemma chain_ok_registry vm : chain_ok vm = true ->
  ∃ l, registry vm = Some l ∧ chain (heap vm) (firstObject vm) l ∧ NoDup l ∧
       ∀ a, is_Some (heap vm !! a) -> a ∈ l.
Proof.
  unfold chain_ok. destruct (registry vm) as [l|] eqn:Hreg; [|done].
  intros [Hnd Hall]%andb_true_iff. exists l. split; [done|].
  split; [by eapply walk_chain|]. split; [by apply bool_decide_eq_true in Hnd|].
  intros a [o Ho]. rewrite forallb_forall in Hall.
  assert (bool_decide (a ∈ l) = true) as Hb
    by (by apply (Hall (a, o)), list_elem_of_In, elem_of_map_to_list).
  by apply bool_decide_eq_true in Hb.
Qed.

Lemma gc_registry vm vm' : WF vm -> gc_post vm vm' ->
  ∃ l l', registry vm = Some l ∧ registry vm' = Some l' ∧ l' `sublist_of` l ∧
          ∀ a, a ∈ l' ↔ is_Some (heap vm' !! a).
Proof.
  intros Hwf (_ & _ & _ & _ & l & l' & Hl & Hl' & Hnd' & Hsub & Hall).
  destruct (WF_chain _ Hwf) as (l0 & Hl0 & Hnd & _).
  rewrite (chain_det _ _ _ _ Hl0 Hl) in Hnd.
  exists l, l'. split; [by apply chain_NoDup_registry|].
  split; [by apply chain_NoDup_registry|]. done.
Qed.

(** The collector on a well-formed state, in terms of [wf] and [registry]. *)
Lemma gc_total vm : wf vm = true ->
  ∃ vm' l l', gc vm = Ret tt vm' ∧ gc_post vm vm' ∧ wf vm' = true ∧
              registry vm = Some l ∧ registry vm' = Some l' ∧
              l' `sublist_of` l ∧ ∀ a, a ∈ l' ↔ is_Some (heap vm' !! a).
Proof.
  intros Hwf%wf_WF. destruct (gc_spec vm Hwf) as (vm' & Hgc & Hpost).
  destruct (gc_registry vm vm' Hwf Hpost) as (l & l' & Hl & Hl' & Hsub & Hall).
  exists vm', l, l'. split; [done|]. split; [done|].
  split; [by eapply WF_wf, gc_WF|]. done.
Qed.

(** The registry after linking a new object at its head. *)
Lemma registry_alloc vm o stk n num max l :
  registry vm = Some l -> NoDup l -> next o = firstObject vm ->
  registry (mkVM stk n num max (Some (malloc (heap vm)))
                 (<[malloc (heap vm) := o]> (heap vm))) = Some (malloc (heap vm) :: l).
Proof.
  intros Hreg Hnd Hnext. apply walk_chain in Hreg as Hc.
  pose proof (malloc_fresh (heap vm)) as Hfresh.
  set (a := malloc (heap vm)) in *.
  assert (Hal : a ∉ l).
  { intros Hal. destruct (chain_elem _ _ _ _ Hc Hal). congruence. }
  apply chain_NoDup_registry; simpl; [|by apply NoDup_cons].
  split; [done|]. exists o. rewrite lookup_insert_eq. split; [done|].
  rewrite Hnext. eapply chain_ext; [|exact Hc].
  intros b Hb. rewrite lookup_insert_ne; [done|]. by intros ->.
Qed.


(** * The claims *)

(** C1. Reachability soundness: a collection started in a well-formed
    state returns, and every object reachable from a stack entry through
    zero or more head / tail fields of pairs is still linked in the
    registry and still allocated, with its contents ([next] apart). *)
Theorem gc_keeps_reachable vm :
  wf vm = true ->
  ∃ vm' l', gc vm = Ret tt vm' ∧ registry vm' = Some l' ∧
    ∀ a, reachable vm a ->
      a ∈ l' ∧
      ∃ o o', heap vm !! a = Some o ∧ heap vm' !! a = Some o' ∧
              o' = set_next (next o') o.
Proof.
  intros Hwf. destruct (gc_total vm Hwf)
    as (vm' & l & l' & Hgc & (_ & Hkeep & _) & _ & _ & Hl' & _ & Hall).
  exists vm', l'. split; [done|]. split; [done|].
  intros a Hr. destruct (reachable_valid vm a (wf_WF _ Hwf) Hr) as [o Ho].
  destruct (Hkeep a o Ho Hr) as (o' & Ho' & Heq).
  split; [apply Hall; eauto|]. eauto.
Qed.

Lemma gc_keeps_reachable_witness :
  wf vm_one_root = true ∧
  ∃ vm' l', gc vm_one_root = Ret tt vm' ∧ registry vm' = Some l' ∧
    ∀ a, reachable vm_one_root a ->
      a ∈ l' ∧
      ∃ o o', heap vm_one_root !! a = Some o ∧ heap vm' !! a = Some o' ∧
              o' = set_next (next o') o.
Proof.
  split; [vm_compute; reflexivity|].
  apply (gc_keeps_reachable vm_one_root). vm_compute; reflexivity.
Defined.

(** C2. Reachability completeness, as far as the code goes: after a
    collection every object that was not reachable from the stack is
    unlinked from the registry and freed.  The object count is not
    touched, so the freed objects are still counted: in the state in which
    [main] collects, the registry ends empty and [numObjects] is still 5. *)
Theorem gc_frees_unreachable_count_stale :
  (∀ vm, wf vm = true ->
     ∃ vm' l', gc vm = Ret tt vm' ∧ registry vm' = Some l' ∧
       (∀ a, ¬ reachable vm a -> ¬ (a ∈ l') ∧ heap vm' !! a = None) ∧
       numObjects vm' = numObjects vm) ∧
  (∃ vm', gc vm_main = Ret tt vm' ∧ registry vm' = Some [] ∧
          heap vm' = ∅ ∧ numObjects vm' = 5).
Proof.
  split.
  - intros vm Hwf. destruct (gc_total vm Hwf)
      as (vm' & l & l' & Hgc & ((_ & _ & Hnum & _) & _ & Hfree & _) & _ & _ & Hl' & _ & Hall).
    exists vm', l'. split; [done|]. split; [done|]. split; [|done].
    intros a Hnr. specialize (Hfree a Hnr). split; [|done].
    intros [o Ho]%Hall. congruence.
  - eexists. split; [vm_compute; reflexivity|]. by vm_compute.
Qed.

Lemma gc_frees_unreachable_count_stale_witness :
  wf vm_main = true ∧
  ∃ vm' l', gc vm_main = Ret tt vm' ∧ registry vm' = Some l' ∧
    (∀ a, ¬ reachable vm_main a -> ¬ (a ∈ l') ∧ heap vm' !! a = None) ∧
    numObjects vm' = numObjects vm_main.
Proof.
  split; [vm_compute; reflexivity|].
  apply (proj1 gc_frees_unreachable_count_stale vm_main). vm_compute; reflexivity.
Defined.

(** C3. The sweep phase: every unmarked object of the registry is
    unlinked and freed, every marked one stays linked, in order, with its
    mark reset.  [numObjects] is not decremented: it is the same after
    [sweep] as before, and after the collection in [main] it is 5 while the
    registry is empty. *)
Theorem sweep_frees_unmarked_count_stale :
  (∀ vm, chain_ok vm = true ->
     ∃ l vm', registry vm = Some l ∧ sweep vm = Ret tt vm' ∧
       registry vm' = Some (kept (heap vm) l) ∧
       (∀ a o, heap vm !! a = Some o -> marked o = false -> heap vm' !! a = None) ∧
       (∀ a o, heap vm !! a = Some o -> marked o = true ->
          ∃ o', heap vm' !! a = Some o' ∧
                o' = set_next (next o') (set_marked false o)) ∧
       numObjects vm' = numObjects vm) ∧
  (∃ vm' l', gc vm_main = Ret tt vm' ∧ registry vm' = Some l' ∧
             length l' = 0%nat ∧ numObjects vm' = 5).
Proof.
  split.
  - intros vm Hok.
    destruct (chain_ok_registry vm Hok) as (l & Hreg & Hc & Hnd & Hall).
    destruct (sweep_loop_spec l (S (size (heap vm))) FirstObject vm (firstObject vm))
      as (vm' & Hrun & (_ & _ & Hnum & _) & (cur' & Hcur' & Hc') & Hkeep & Hfree & _);
      [done|done|done|done|by apply Nat.lt_succ_r; eapply chain_length|].
    simpl in Hcur'. injection Hcur' as <-.
    exists l, vm'. split; [done|]. split; [done|].
    split; [apply chain_NoDup_registry; [done|by apply NoDup_filter]|].
    split; [|split; [|done]].
    + intros a o Ho Hm. eapply Hfree; eauto.
    + intros a o Ho Hm. eapply Hkeep; eauto.
  - eexists _, _. split; [vm_compute; reflexivity|]. by vm_compute.
Qed.

Lemma sweep_frees_unmarked_count_stale_witness :
  chain_ok vm_one_root_marked = true ∧
  ∃ l vm', registry vm_one_root_marked = Some l ∧
    sweep vm_one_root_marked = Ret tt vm' ∧
    registry vm' = Some (kept (heap vm_one_root_marked) l) ∧
    (∀ a o, heap vm_one_root_marked !! a = Some o -> marked o = false ->
       heap vm' !! a = None) ∧
    (∀ a o, heap vm_one_root_marked !! a = Some o -> marked o = true ->
       ∃ o', heap vm' !! a = Some o' ∧
             o' = set_next (next o') (set_marked false o)) ∧
    numObjects vm' = numObjects vm_one_root_marked.
Proof.
  split; [vm_compute; reflexivity|].
  apply (proj1 sweep_frees_unmarked_count_stale vm_one_root_marked).
  vm_compute; reflexivity.
Defined.

(** C4. The threshold after a collection is twice [numObjects], and
    [numObjects] is the count from before the collection, not the number
    [k] of objects left: the collection in [main] leaves [k = 0] objects
    and sets the threshold to 10. *)
Theorem gc_threshold_twice_stale_count :
  (∀ vm, wf vm = true ->
     ∃ vm' l', gc vm = Ret tt vm' ∧ registry vm' = Some l' ∧
       numObjects vm' = numObjects vm ∧
       maxObjects vm' = int_wrap (numObjects vm * 2)) ∧
  (∃ vm' l', gc vm_main = Ret tt vm' ∧ registry vm' = Some l' ∧
             length l' = 0%nat ∧ maxObjects vm' = 10).
Proof.
  split.
  - intros vm Hwf. destruct (gc_total vm Hwf)
      as (vm' & l & l' & Hgc & ((_ & _ & Hnum & Hmax) & _) & _ & _ & Hl' & _).
    by exists vm', l'.
  - eexists _, _. split; [vm_compute; reflexivity|]. by vm_compute.
Qed.

Lemma gc_threshold_twice_stale_count_witness :
  wf vm_main = true ∧
  ∃ vm' l', gc vm_main = Ret tt vm' ∧ registry vm' = Some l' ∧
    numObjects vm' = numObjects vm_main ∧
    maxObjects vm' = int_wrap (numObjects vm_main * 2).
Proof.
  split; [vm_compute; reflexivity|].
  apply (proj1 gc_threshold_twice_stale_count vm_main). vm_compute; reflexivity.
Defined.

(** C5. The run of [main]: after the three [pushInt] there are 3 objects
    and 3 stack entries, after the first [pushPair] 4 and 2, after the
    second 5 and 1, after [pop] 5 and 0.  The collection then empties the
    registry and the heap, but leaves [numObjects] at 5 and sets
    [maxObjects] to 10. *)
Theorem main_trace :
  ∃ s1 s2 s3 s4 s5 s6 s7 a1 a2 p,
    pushInt 0 newVM = Ret tt s1 ∧ pushInt 1 s1 = Ret tt s2 ∧
    pushInt 2 s2 = Ret tt s3 ∧ pushPair s3 = Ret a1 s4 ∧
    pushPair s4 = Ret a2 s5 ∧ pop s5 = Ret p s6 ∧ gc s6 = Ret tt s7 ∧
    main newVM = Ret tt s7 ∧
    (numObjects s3, stackSize s3) = (3, 3) ∧
    (numObjects s4, stackSize s4) = (4, 2) ∧
    (numObjects s5, stackSize s5) = (5, 1) ∧
    (numObjects s6, stackSize s6) = (5, 0) ∧
    registry s6 = Some [5; 4; 3; 2; 1]%positive ∧
    registry s7 = Some [] ∧ heap s7 = ∅ ∧
    (numObjects s7, maxObjects s7) = (5, 10).
Proof.
  do 10 eexists.
  repeat (split; [vm_compute; reflexivity|]). vm_compute; reflexivity.
Qed.

(** C6. The guard of [push]: the call exits with the overflow message
    only when [stackSize] is above [STACK_MAX_SIZE].  Below it the
    reference becomes the new top.  With exactly [STACK_MAX_SIZE] entries
    the call is not refused and stores to [stack[STACK_MAX_SIZE]], one past
    the end of the array. *)
Theorem push_guard_one_late value vm :
  Z.of_nat (length (stack vm)) = STACK_MAX_SIZE ->
  (∀ e vm', push value vm = Exit e vm' ->
     e = StackOverflow ∧ vm' = vm ∧ STACK_MAX_SIZE < stackSize vm) ∧
  (STACK_MAX_SIZE < stackSize vm -> push value vm = Exit StackOverflow vm) ∧
  (0 <= stackSize vm < STACK_MAX_SIZE ->
     push value vm =
       Ret tt (with_stack (<[Z.to_nat (stackSize vm) := value]> (stack vm))
                          (stackSize vm + 1) vm)) ∧
  (stackSize vm = STACK_MAX_SIZE ->
     push value vm = Undefined (OutOfBounds STACK_MAX_SIZE)).
Proof.
  intros Hlen. split; [|split; [|split]].
  - unfold push. intros e vm'.
    destruct (Z.gtb_spec (stackSize vm) STACK_MAX_SIZE).
    + by intros [= <- <-].
    + by destruct (_ && _).
  - intros Hn. unfold push.
    by destruct (Z.gtb_spec (stackSize vm) STACK_MAX_SIZE); [|lia].
  - intros Hn. by apply push_Ret.
  - intros Hn. by apply push_full.
Qed.

Lemma push_guard_one_late_witness :
  Z.of_nat (length (stack vm_full)) = STACK_MAX_SIZE ∧
  stackSize vm_full = STACK_MAX_SIZE ∧
  push (Some 1%positive) vm_full = Undefined (OutOfBounds STACK_MAX_SIZE).
Proof.
  split; [reflexivity|]. split; [reflexivity|].
  apply (push_guard_one_late (Some 1%positive) vm_full); reflexivity.
Defined.

Lemma int_wrap_small z : - 2 ^ 31 <= z < 2 ^ 31 -> int_wrap z = z.
Proof. intros Hz. unfold int_wrap. rewrite Z.mod_small; lia. Qed.

(** C7. [pushPair] on a stack of at least two entries pops the top entry
    into [tail] and the next one into [head] of a new pair, and pushes the
    pair: the stack is one entry shorter, the pair is its new top,
    [numObjects] is one higher, and the pair heads the registry (which is the
    old registry behind it when no collection was due).  On a stack of
    fewer than two entries the call exits with the underflow message. *)
Theorem pushPair_pops_two vm :
  wf vm = true -> 0 <= numObjects vm < INT_MAX ->
  (2 <= stackSize vm ->
   ∃ a h t vm',
     stack vm !! Z.to_nat (stackSize vm - 1) = Some t ∧
     stack vm !! Z.to_nat (stackSize vm - 2) = Some h ∧
     pushPair vm = Ret a vm' ∧
     (∃ nxt, heap vm' !! a = Some (mkObject PAIR_TYPE false nxt 0 h t)) ∧
     valid (heap vm') h = true ∧ valid (heap vm') t = true ∧
     stack vm' = <[Z.to_nat (stackSize vm - 2) := Some a]> (stack vm) ∧
     stackSize vm' = stackSize vm - 1 ∧
     numObjects vm' = numObjects vm + 1 ∧
     firstObject vm' = Some a ∧
     (numObjects vm ≠ maxObjects vm ->
        heap vm !! a = None ∧
        ∀ l, registry vm = Some l -> registry vm' = Some (a :: l))) ∧
  (stackSize vm < 2 -> ∃ vm', pushPair vm = Exit StackUnderflow vm').
Proof.
  intros Hwf%wf_WF Hnum. split.
  - intros Hn.
    destruct (pushPair_spec vm Hwf Hn)
      as (vm1 & h & t & Hgc & Hwf1 & Hs & Hsn & Hh & Ht & Heq).
    eexists _, h, t, _. split; [done|]. split; [done|]. split; [exact Heq|].
    simpl. split; [by rewrite lookup_insert_eq; eauto|].
    split; [|split].
    { apply valid_insert, (WF_roots _ Hwf1 (stackSize vm - 2)); [lia|by rewrite Hs]. }
    { apply valid_insert, (WF_roots _ Hwf1 (stackSize vm - 1)); [lia|by rewrite Hs]. }
    split; [done|]. split; [done|].
    split; [apply int_wrap_small; unfold INT_MAX in Hnum; lia|]. split; [done|].
    intros Hne. apply Z.eqb_neq in Hne. rewrite Hne in Hgc. subst vm1.
    split; [apply malloc_fresh|]. intros l Hl.
    destruct (WF_registry vm Hwf) as (l0 & Hl0 & Hnd & _).
    rewrite Hl in Hl0. injection Hl0 as <-. by apply registry_alloc.
  - intros Hn. destruct (pushPair_underflow vm Hwf Hn) as (vm1 & t & _ & Heq).
    eauto.
Qed.

Lemma pushPair_pops_two_witness :
  wf vm_two = true ∧ 0 <= numObjects vm_two < INT_MAX ∧ 2 <= stackSize vm_two ∧
  ∃ a h t vm',
     stack vm_two !! Z.to_nat (stackSize vm_two - 1) = Some t ∧
     stack vm_two !! Z.to_nat (stackSize vm_two - 2) = Some h ∧
     pushPair vm_two = Ret a vm' ∧
     (∃ nxt, heap vm' !! a = Some (mkObject PAIR_TYPE false nxt 0 h t)) ∧
     valid (heap vm') h = true ∧ valid (heap vm') t = true ∧
     stack vm' = <[Z.to_nat (stackSize vm_two - 2) := Some a]> (stack vm_two) ∧
     stackSize vm' = stackSize vm_two - 1 ∧
     numObjects vm' = numObjects vm_two + 1 ∧
     firstObject vm' = Some a ∧
     (numObjects vm_two ≠ maxObjects vm_two ->
        heap vm_two !! a = None ∧
        ∀ l, registry vm_two = Some l -> registry vm' = Some (a :: l)).
Proof.
  split; [vm_compute; reflexivity|].
  split; [vm_compute; split; [intros [=]|reflexivity]|].
  split; [vm_compute; intros [=]|].
  apply (pushPair_pops_two vm_two).
  - vm_compute; reflexivity.
  - vm_compute. split; [intros [=]|reflexivity].
  - vm_compute. intros [=].
Defined.

Lemma mark_fuel_enough h p fuel :
  (size h < fuel)%nat ->
  match mark fuel p h with
  | Ret _ h' => mark_post h p h'
  | Undefined _ => ¬ (closed h ∧ valid h p = true)
  | _ => False
  end.
Proof.
  intros Hfuel. apply (mark_spec fuel (dom h)).
  - intros a o Ho _. apply elem_of_dom. eauto.
  - by rewrite size_dom.
Qed.

(** C8. Marking terminates on every heap, cyclic or shared: a call on a
    marked object returns at once without a change, a recursion budget
    above the number of objects is never exhausted, and on a well-formed
    state [mark] and [markAll] return, [markAll] having marked exactly
    the reachable objects.  An object on a cycle that no stack entry
    reaches is unlinked and freed by the collection. *)
Theorem mark_terminates_on_cycles :
  (∀ fuel h a o, h !! a = Some o -> marked o = true ->
     mark (S fuel) (Some a) h = Ret tt h) ∧
  (∀ h p fuel, (size h < fuel)%nat -> mark fuel p h ≠ OutOfFuel) ∧
  (∀ vm p, wf vm = true -> valid (heap vm) p = true ->
     ∃ h', mark (mark_fuel (heap vm)) p (heap vm) = Ret tt h' ∧
           erase h' = erase (heap vm)) ∧
  (∀ vm, wf vm = true ->
     ∃ vm', markAll vm = Ret tt vm' ∧
            ∀ a, is_marked (heap vm') a ↔ reachable vm a) ∧
  (∀ vm a, wf vm = true -> on_cycle (heap vm) a -> ¬ reachable vm a ->
     ∃ vm' l', gc vm = Ret tt vm' ∧ registry vm' = Some l' ∧
               ¬ (a ∈ l') ∧ heap vm' !! a = None).
Proof.
  split; [|split; [|split; [|split]]].
  - intros fuel h a o Ho Hm. simpl. by rewrite Ho, Hm.
  - intros h p fuel Hfuel E. pose proof (mark_fuel_enough h p fuel Hfuel) as H.
    by rewrite E in H.
  - intros vm p Hwf%wf_WF Hp.
    pose proof (mark_fuel_enough (heap vm) p (mark_fuel (heap vm))) as H.
    destruct (mark (mark_fuel (heap vm)) p (heap vm)) as [[] h'|?|f|].
    + exists h'. split; [done|]. apply H. unfold mark_fuel. lia.
    + destruct H. unfold mark_fuel. lia.
    + destruct H; [unfold mark_fuel; lia|]. split; [apply Hwf|done].
    + destruct H. unfold mark_fuel. lia.
  - intros vm Hwf%wf_WF. destruct (markAll_spec vm Hwf) as (h' & Hrun & _ & Hm).
    by exists (with_heap h' vm).
  - intros vm a Hwf _ Hnr. destruct (gc_total vm Hwf)
      as (vm' & l & l' & Hgc & (_ & _ & Hfree & _) & _ & _ & Hl' & _ & Hall).
    exists vm', l'. split; [done|]. split; [done|].
    specialize (Hfree a Hnr). split; [|done]. intros [o Ho]%Hall. congruence.
Qed.

Lemma mark_terminates_on_cycles_witness :
  wf vm_cyclic = true ∧ on_cycle (heap vm_cyclic) 3%positive ∧
  ¬ reachable vm_cyclic 3%positive ∧
  (∃ vm', markAll vm_cyclic = Ret tt vm' ∧
          ∀ a, is_marked (heap vm') a ↔ reachable vm_cyclic a) ∧
  (∃ vm' l', gc vm_cyclic = Ret tt vm' ∧ registry vm' = Some l' ∧
             ¬ (3%positive ∈ l') ∧ heap vm' !! 3%positive = None).
Proof.
  assert (Hwf : wf vm_cyclic = true) by (vm_compute; reflexivity).
  assert (Hcyc : on_cycle (heap vm_cyclic) 3%positive).
  { eexists _, 4%positive. split; [vm_compute; reflexivity|].
    split; [reflexivity|]. split; [by left|].
    eapply reach_head; [vm_compute; reflexivity|reflexivity|reflexivity|constructor]. }
  assert (Hnr : ¬ reachable vm_cyclic 3%positive).
  { intros (r & (i & Hi & Hr) & Hreach).
    change (stackSize vm_cyclic) with 1 in Hi.
    replace i with 0 in Hr by lia. vm_compute in Hr. injection Hr as <-.
    assert (∀ x y, reach (heap vm_cyclic) x y ->
              x = 1%positive ∨ x = 2%positive -> y = 1%positive ∨ y = 2%positive) as Hclosed.
    { induction 1 as [x|x b c o Ho Hty Hhd _ IH|x b c o Ho Hty Htl _ IH]; [done|..];
        intros [->| ->]; vm_compute in Ho; injection Ho as <-;
        simpl in *; try discriminate; apply IH.
      - injection Hhd as <-. by left.
      - injection Htl as <-. by right. }
    destruct (Hclosed _ _ Hreach); [by left|discriminate..]. }
  split; [exact Hwf|]. split; [exact Hcyc|]. split; [exact Hnr|]. split.
  - exact (proj1 (proj2 (proj2 (proj2 mark_terminates_on_cycles))) vm_cyclic Hwf).
  - exact (proj2 (proj2 (proj2 (proj2 mark_terminates_on_cycles)))
             vm_cyclic 3%positive Hwf Hcyc Hnr).
Defined.

Lemma WF_registry_unmarked vm : WF vm -> registry_unmarked vm.
Proof.
  intros Hwf. destruct (WF_registry vm Hwf) as (l & Hl & _ & Hall).
  exists l. split; [done|]. intros a [o Ho]%Hall. exists o. split; [done|].
  by apply (WF_unmarked _ Hwf a).
Qed.

(** Counterexample to C9: on the empty stack of a new VM [pushPair] exits
    with the underflow message after it has allocated and registered the
    pair, so the state at the exit differs from the state at the call. *)
Lemma pushPair_underflow_changes_state :
  ∃ vm', pushPair newVM = Exit StackUnderflow vm' ∧
         numObjects newVM = 0 ∧ numObjects vm' = 1 ∧
         firstObject newVM = NULL ∧ firstObject vm' = Some 1%positive ∧
         ¬ exits_unchanged pushPair.
Proof.
  eexists. split; [vm_compute; reflexivity|]. repeat (split; [reflexivity|]).
  intros H.
  specialize (H newVM StackUnderflow (final (pushPair newVM)) eq_refl).
  apply (f_equal numObjects) in H. vm_compute in H. discriminate.
Qed.

(** C9, amended. [push] and [pop] test their guard before they write
    anything: when they exit with the overflow or the underflow message,
    the state is the one they were called in.  [pushPair] reaches the
    underflow exit only after [newObject]: a due collection has run, the
    new pair heads the registry, [numObjects] is incremented, and a single
    stack entry, when there was one, is popped into [tail]. *)
Theorem push_pop_exit_unchanged :
  (∀ value, exits_unchanged (push value)) ∧
  exits_unchanged pop ∧
  (∀ vm, wf vm = true -> stackSize vm < 2 ->
     ∃ vm1 t,
       (if numObjects vm =? maxObjects vm then gc vm else Ret tt vm) = Ret tt vm1 ∧
       pushPair vm =
         Exit StackUnderflow
           (mkVM (stack vm) 0 (int_wrap (numObjects vm + 1))
                 (maxObjects vm1) (Some (malloc (heap vm1)))
                 (<[malloc (heap vm1) :=
                      mkObject PAIR_TYPE false (firstObject vm1) 0 NULL t]>
                    (heap vm1)))).
Proof.
  split; [|split].
  - intros value vm e vm'. unfold push.
    destruct (stackSize vm >? STACK_MAX_SIZE); [by intros [= _ <-]|].
    by destruct (_ && _).
  - intros vm e vm'. unfold pop.
    destruct (negb (stackSize vm >? 0)); [by intros [= _ <-]|].
    by destruct (stack vm !! _).
  - intros vm Hwf%wf_WF Hn. by apply pushPair_underflow.
Qed.

Lemma push_pop_exit_unchanged_witness :
  wf newVM = true ∧ stackSize newVM < 2 ∧
  ∃ vm1 t,
    (if numObjects newVM =? maxObjects newVM then gc newVM else Ret tt newVM)
      = Ret tt vm1 ∧
    pushPair newVM =
      Exit StackUnderflow
        (mkVM (stack newVM) 0 (int_wrap (numObjects newVM + 1))
              (maxObjects vm1) (Some (malloc (heap vm1)))
              (<[malloc (heap vm1) :=
                   mkObject PAIR_TYPE false (firstObject vm1) 0 NULL t]>
                 (heap vm1))).
Proof.
  split; [vm_compute; reflexivity|]. split; [reflexivity|].
  apply (proj2 (proj2 push_pop_exit_unchanged) newVM); reflexivity.
Defined.

(** C10. No registered object is marked outside a collection: in a
    well-formed state [newObject] returns a new object whose mark is
    clear, with or without a collection, and whenever [newObject],
    [pushInt], [pushPair], [pop] or [gc] returns, every object of the
    registry is unmarked (and, but for the half-built pair [newObject]
    hands to [pushPair], the state is well formed again). *)
Theorem operations_keep_unmarked vm :
  wf vm = true ->
  registry_unmarked vm ∧
  (∀ ty, ∃ a vm', newObject ty vm = Ret a vm' ∧
     (∃ o, heap vm' !! a = Some o ∧ marked o = false) ∧ registry_unmarked vm') ∧
  (∃ vm', gc vm = Ret tt vm' ∧ wf vm' = true ∧ registry_unmarked vm') ∧
  (∀ intValue vm', pushInt intValue vm = Ret tt vm' ->
     wf vm' = true ∧ registry_unmarked vm') ∧
  (∀ a vm', pushPair vm = Ret a vm' -> wf vm' = true ∧ registry_unmarked vm') ∧
  (∀ p vm', pop vm = Ret p vm' -> wf vm' = true ∧ registry_unmarked vm').
Proof.
  intros Hwf%wf_WF. split; [by apply WF_registry_unmarked|].
  split; [|split; [|split; [|split]]].
  - intros ty.
    destruct (newObject_spec ty vm Hwf) as (vm1 & _ & Hwf1 & _ & _ & Heq).
    eexists _, _. split; [exact Heq|]. simpl. rewrite lookup_insert_eq.
    split; [eauto|].
    destruct (WF_registry vm1 Hwf1) as (l & Hl & Hnd & Hall).
    exists (malloc (heap vm1) :: l). split; [by apply registry_alloc|].
    intros b [->|Hb]%elem_of_cons; simpl.
    + rewrite lookup_insert_eq. eauto.
    + apply Hall in Hb as [ob Hob]. exists ob.
      rewrite lookup_insert_ne; [|intros E; rewrite <- E, malloc_fresh in Hob; done].
      split; [done|]. by apply (WF_unmarked _ Hwf1 b).
  - destruct (gc_spec vm Hwf) as (vm' & Hgc & Hpost).
    pose proof (gc_WF _ _ Hwf Hpost) as Hwf'.
    exists vm'. split; [done|]. split; [by apply WF_wf|by apply WF_registry_unmarked].
  - intros v vm' Hrun. pose proof (pushInt_WF _ _ _ Hwf Hrun) as Hwf'.
    split; [by apply WF_wf|by apply WF_registry_unmarked].
  - intros a vm' Hrun. pose proof (pushPair_WF _ _ _ Hwf Hrun) as Hwf'.
    split; [by apply WF_wf|by apply WF_registry_unmarked].
  - intros p vm' Hrun. pose proof (pop_WF _ _ _ Hwf Hrun) as Hwf'.
    split; [by apply WF_wf|by apply WF_registry_unmarked].
Qed.

Lemma operations_keep_unmarked_witness :
  wf vm_one_root = true ∧
  ∃ vm', gc vm_one_root = Ret tt vm' ∧ wf vm' = true ∧ registry_unmarked vm'.
Proof.
  split; [vm_compute; reflexivity|].
  apply (operations_keep_unmarked vm_one_root). vm_compute; reflexivity.
Defined.

(** * Further properties of the collector and the stack machine *)

(** ** Auxiliary facts *)

Lemma chain_next_eq h h' p l :
  chain h p l -> chain h' p l ->
  ∀ a, a ∈ l -> next <$> h !! a = next <$> h' !! a.
Proof.
  revert p. induction l as [|b l IH]; intros p Hc Hc' a Ha.
  { by apply not_elem_of_nil in Ha. }
  destruct Hc as [-> (o & Ho & Hc)]. destruct Hc' as [_ (o' & Ho' & Hc')].
  assert (Hn : next o = next o').
  { destruct l as [|c l]; simpl in Hc, Hc'; [congruence|].
    destruct Hc as [-> _]. by destruct Hc' as [-> _]. }
  apply elem_of_cons in Ha as [->|Ha].
  - rewrite Ho, Ho'. simpl. by rewrite Hn.
  - rewrite <- Hn in Hc'. by eapply IH.
Qed.

Lemma chain_head h h' p p' l : chain h p l -> chain h' p' l -> p = p'.
Proof. destruct l; simpl; [congruence|]. by intros [-> _] [-> _]. Qed.

Lemma sublist_full {A} (l' l : list A) :
  l' `sublist_of` l -> (length l <= length l')%nat -> l' = l.
Proof.
  induction 1 as [|x l1 l2 Hsub IH|x l1 l2 Hsub IH]; simpl; intros Hlen.
  - done.
  - f_equal. apply IH. lia.
  - apply sublist_length in Hsub. lia.
Qed.

(** The same objects are reachable after a collection as before. *)
Lemma reachable_gc vm vm' : WF vm -> gc_post vm vm' ->
  ∀ a, reachable vm' a ↔ reachable vm a.
Proof.
  intros Hwf ((Hs & Hsn & _) & Hkeep & _ & Hback & _) a.
  unfold reachable, root. rewrite Hs, Hsn. split.
  - intros (r & Hr & Hreach). exists r. split; [done|]. clear Hr.
    induction Hreach as [x|x b c o' Ho' Hty Hhd _ IH|x b c o' Ho' Hty Htl _ IH].
    + constructor.
    + destruct (Hback x o' Ho') as (_ & o & Ho & Heq).
      rewrite Heq in Hty, Hhd. by eapply reach_head.
    + destruct (Hback x o' Ho') as (_ & o & Ho & Heq).
      rewrite Heq in Hty, Htl. by eapply reach_tail.
  - intros (r & Hr & Hreach). exists r. split; [done|].
    assert (Hrr : reachable vm r).
    { destruct Hr as (i & Hi & Hr). by eapply reachable_root. }
    clear Hr.
    induction Hreach as [x|x b c o Ho Hty Hhd _ IH|x b c o Ho Hty Htl _ IH].
    + constructor.
    + destruct (Hkeep x o Ho Hrr) as (o' & Ho' & Heq).
      eapply reach_head; [exact Ho'|by rewrite Heq..|].
      apply IH. by eapply reachable_head.
    + destruct (Hkeep x o Ho Hrr) as (o' & Ho' & Heq).
      eapply reach_tail; [exact Ho'|by rewrite Heq..|].
      apply IH. by eapply reachable_tail.
Qed.

Lemma with_maxObjects_id vm : with_maxObjects (maxObjects vm) vm = vm.
Proof. by destruct vm. Qed.

(** Without garbage a collection only sets the threshold. *)
Lemma gc_no_garbage vm :
  WF vm -> (∀ a, is_Some (heap vm !! a) -> reachable vm a) ->
  gc vm = Ret tt (with_maxObjects (int_wrap (numObjects vm * 2)) vm).
Proof.
  intros Hwf Hlive. destruct (gc_spec vm Hwf) as (vm' & Hgc & Hpost).
  rewrite Hgc. f_equal.
  destruct Hpost as ((Hs & Hsn & Hnum & Hmax) & Hkeep & Hfree & Hback
                     & l & l' & Hl & Hl' & Hnd' & Hsub & Hall).
  destruct (WF_chain _ Hwf) as (l0 & Hl0 & Hnd & _).
  rewrite (chain_det _ _ _ _ Hl0 Hl) in Hnd. clear l0 Hl0.
  assert (l' = l) as ->.
  { apply sublist_full; [done|]. apply submseteq_length, NoDup_submseteq; [done|].
    intros a Ha. apply Hall. destruct (chain_elem _ _ _ _ Hl Ha) as [o Ho].
    destruct (Hkeep a o Ho) as (o' & Ho' & _); [apply Hlive|]; eauto. }
  pose proof (chain_head _ _ _ _ _ Hl' Hl) as Hfirst.
  assert (Hheap : heap vm' = heap vm).
  { rewrite Hfirst in Hl'. apply map_eq. intros a. destruct (heap vm !! a) as [o|] eqn:Ho.
    - destruct (Hkeep a o Ho) as (o' & Ho' & Heq); [apply Hlive; eauto|].
      rewrite Ho'. f_equal. rewrite Heq.
      assert (a ∈ l) as Ha by (apply Hall; eauto).
      pose proof (chain_next_eq _ _ _ _ Hl' Hl a Ha) as Hn.
      rewrite Ho', Ho in Hn. injection Hn as ->. apply set_next_id.
    - apply Hfree. intros Hr. destruct (reachable_valid _ _ Hwf Hr). congruence. }
  destruct vm, vm'. unfold with_maxObjects. simpl in *. congruence.
Qed.

(** ** The collector *)

(** X1. A second collection right after a collection changes nothing:
    [gc] returns the state it was given. *)
Theorem gc_idempotent vm :
  wf vm = true -> ∃ vm', gc vm = Ret tt vm' ∧ gc vm' = Ret tt vm'.
Proof.
  intros Hwf%wf_WF. destruct (gc_spec vm Hwf) as (vm' & Hgc & Hpost).
  exists vm'. split; [done|].
  pose proof (gc_WF _ _ Hwf Hpost) as Hwf'.
  rewrite gc_no_garbage; [|done|].
  - destruct Hpost as ((_ & _ & -> & <-) & _). by rewrite with_maxObjects_id.
  - intros a [o' Ho']. apply (reachable_gc _ _ Hwf Hpost).
    destruct Hpost as (_ & _ & _ & Hback & _). by destruct (Hback a o' Ho').
Qed.

Lemma gc_idempotent_witness :
  wf vm_one_root = true ∧
  ∃ vm', gc vm_one_root = Ret tt vm' ∧ gc vm' = Ret tt vm'.
Proof.
  split; [vm_compute; reflexivity|].
  apply (gc_idempotent vm_one_root). vm_compute; reflexivity.
Defined.

(** X2. When every registered object is reachable from the stack, a
    collection frees nothing and relinks nothing: the state it returns
    differs from the one it was given in [maxObjects] only. *)
Theorem gc_without_garbage vm l :
  wf vm = true -> registry vm = Some l -> Forall (reachable vm) l ->
  gc vm = Ret tt (with_maxObjects (int_wrap (numObjects vm * 2)) vm).
Proof.
  intros Hwf%wf_WF Hl Hlive. apply gc_no_garbage; [done|].
  destruct (WF_registry vm Hwf) as (l0 & Hl0 & _ & Hall).
  rewrite Hl in Hl0. injection Hl0 as <-.
  intros a Ha%Hall. by eapply Forall_forall in Hlive.
Qed.

Lemma gc_without_garbage_witness :
  wf vm_two = true ∧ registry vm_two = Some [2; 1]%positive ∧
  Forall (reachable vm_two) [2; 1]%positive ∧
  gc vm_two = Ret tt (with_maxObjects (int_wrap (numObjects vm_two * 2)) vm_two).
Proof.
  assert (Hwf : wf vm_two = true) by (vm_compute; reflexivity).
  assert (Hl : registry vm_two = Some [2; 1]%positive) by (vm_compute; reflexivity).
  assert (Hlive : Forall (reachable vm_two) [2; 1]%positive).
  { repeat constructor.
    - apply (reachable_root vm_two 1); [vm_compute; split; [intros [=]|reflexivity]|].
      vm_compute; reflexivity.
    - apply (reachable_root vm_two 0); [vm_compute; split; [intros [=]|reflexivity]|].
      vm_compute; reflexivity. }
  split; [exact Hwf|]. split; [exact Hl|]. split; [exact Hlive|].
  exact (gc_without_garbage vm_two _ Hwf Hl Hlive).
Defined.

(** X3. A collection keeps exactly the reachable objects on the
    registry, in the order they had, does not write to the stack, and
    leaves the same objects reachable. *)
Theorem gc_registry_exact vm :
  wf vm = true ->
  ∃ vm' l l', gc vm = Ret tt vm' ∧
    registry vm = Some l ∧ registry vm' = Some l' ∧ l' `sublist_of` l ∧
    (∀ a, a ∈ l' ↔ reachable vm a) ∧
    stack vm' = stack vm ∧ stackSize vm' = stackSize vm ∧
    (∀ a, reachable vm' a ↔ reachable vm a).
Proof.
  intros Hwf. destruct (gc_total vm Hwf)
    as (vm' & l & l' & Hgc & Hpost & _ & Hl & Hl' & Hsub & Hall).
  apply wf_WF in Hwf.
  exists vm', l, l'. split; [done|]. split; [done|]. split; [done|].
  split; [done|]. split; [|split; [|split]].
  - intros a. rewrite Hall. destruct Hpost as (_ & Hkeep & _ & Hback & _). split.
    + intros [o' Ho']. by destruct (Hback a o' Ho').
    + intros Hr. destruct (reachable_valid _ _ Hwf Hr) as [o Ho].
      destruct (Hkeep a o Ho Hr) as (o' & Ho' & _). eauto.
  - by destruct Hpost as ((? & _) & _).
  - by destruct Hpost as ((_ & ? & _) & _).
  - by apply reachable_gc.
Qed.

Lemma gc_registry_exact_witness :
  wf vm_cyclic = true ∧
  ∃ vm' l l', gc vm_cyclic = Ret tt vm' ∧
    registry vm_cyclic = Some l ∧ registry vm' = Some l' ∧ l' `sublist_of` l ∧
    (∀ a, a ∈ l' ↔ reachable vm_cyclic a) ∧
    stack vm' = stack vm_cyclic ∧ stackSize vm' = stackSize vm_cyclic ∧
    (∀ a, reachable vm' a ↔ reachable vm_cyclic a).
Proof.
  split; [vm_compute; reflexivity|].
  apply (gc_registry_exact vm_cyclic). vm_compute; reflexivity.
Defined.

(** X4. With an empty stack a collection frees every object: the heap
    and the registry are empty afterwards, whatever was allocated. *)
Theorem gc_empty_stack vm :
  wf vm = true -> stackSize vm = 0 ->
  gc vm = Ret tt (mkVM (stack vm) 0 (numObjects vm)
                       (int_wrap (numObjects vm * 2)) NULL ∅).
Proof.
  intros Hwf%wf_WF Hn. destruct (gc_spec vm Hwf) as (vm' & Hgc & Hpost).
  rewrite Hgc. f_equal.
  destruct Hpost as ((Hs & Hsn & Hnum & Hmax) & _ & Hfree & _
                     & l & l' & _ & Hl' & _ & _ & Hall).
  assert (Hheap : heap vm' = ∅).
  { apply map_empty. intros a. apply Hfree.
    intros (r & (i & Hi & _) & _). lia. }
  assert (l' = []) as ->.
  { destruct l' as [|b l']; [done|].
    destruct (proj1 (Hall b)) as [o Ho]; [apply list_elem_of_here|].
    by rewrite Hheap in Ho. }
  simpl in Hl'. destruct vm'. unfold NULL. simpl in *. congruence.
Qed.

Lemma gc_empty_stack_witness :
  wf vm_main = true ∧ stackSize vm_main = 0 ∧
  gc vm_main = Ret tt (mkVM (stack vm_main) 0 (numObjects vm_main)
                            (int_wrap (numObjects vm_main * 2)) NULL ∅).
Proof.
  split; [vm_compute; reflexivity|]. split; [vm_compute; reflexivity|].
  apply (gc_empty_stack vm_main); vm_compute; reflexivity.
Defined.

(** X5. [sweep] without a mark phase before it frees the whole
    registry, reachable or not: on a state in which no object is marked
    it leaves an empty heap and a NULL [firstObject]. *)
Theorem sweep_unmarked_frees_all vm :
  wf vm = true ->
  sweep vm = Ret tt (with_firstObject NULL (with_heap ∅ vm)).
Proof.
  intros Hwf%wf_WF. destruct (WF_chain _ Hwf) as (l & Hc & Hnd & Hall).
  destruct (sweep_loop_spec l (S (size (heap vm))) FirstObject vm (firstObject vm))
    as (vm' & Hrun & (Hs & Hsn & Hnum & Hmax) & (cur' & Hcur' & Hc') & _ & Hfree & Hrest & _);
    [done|done|done|done|by apply Nat.lt_succ_r; eapply chain_length|].
  unfold sweep. rewrite Hrun. f_equal.
  assert (kept (heap vm) l = []) as Hk.
  { destruct (kept (heap vm) l) as [|b k] eqn:E; [done|].
    assert (b ∈ kept (heap vm) l) as Hb by (rewrite E; apply list_elem_of_here).
    apply list_elem_of_filter in Hb as [Hm%markedb_is_marked _].
    destruct Hm as (o & Ho & Hm). rewrite (WF_unmarked _ Hwf b o Ho) in Hm. done. }
  rewrite Hk in Hc'. simpl in Hc', Hcur'. subst cur'. injection Hcur' as Hfirst.
  assert (Hheap : heap vm' = ∅).
  { apply map_empty. intros a. destruct (heap vm !! a) as [o|] eqn:Ho.
    - eapply Hfree; [apply Hall; eauto|done|]. by apply (WF_unmarked _ Hwf a).
    - rewrite Hrest; [done| |done]. intros Ha.
      destruct (chain_elem _ _ _ _ Hc Ha). congruence. }
  destruct vm, vm'. unfold with_firstObject, with_heap, NULL. simpl in *. congruence.
Qed.

Lemma sweep_unmarked_frees_all_witness :
  wf vm_two = true ∧
  sweep vm_two = Ret tt (with_firstObject NULL (with_heap ∅ vm_two)).
Proof.
  split; [vm_compute; reflexivity|].
  apply (sweep_unmarked_frees_all vm_two). vm_compute; reflexivity.
Defined.

(** ** Marking *)

(** X6. A call of [mark] on a heap without marks sets the mark of
    exactly the objects reachable from its argument, and changes no
    other field of any object. *)
Theorem mark_marks_exactly_reach vm p :
  wf vm = true -> valid (heap vm) p = true ->
  ∃ h', mark (mark_fuel (heap vm)) p (heap vm) = Ret tt h' ∧
        erase h' = erase (heap vm) ∧
        ∀ a, is_marked h' a ↔ ∃ r, p = Some r ∧ reach (heap vm) r a.
Proof.
  intros Hwf%wf_WF Hp.
  pose proof (mark_fuel_enough (heap vm) p (mark_fuel (heap vm))) as H.
  destruct (mark (mark_fuel (heap vm)) p (heap vm)) as [[] h'|?|f|];
    [|destruct H; unfold mark_fuel; lia
     |destruct H; [unfold mark_fuel; lia|]; split; [apply Hwf|done]
     |destruct H; unfold mark_fuel; lia].
  destruct H as (He & _ & (r & -> & Mr) & Hnew); [unfold mark_fuel; lia|].
  exists h'. split; [done|]. split; [done|].
  assert (Hf : ∀ a, is_marked h' a -> fields_marked h' a ∧ reach (heap vm) r a).
  { intros a Ha. destruct (Hnew a Ha) as [(o & Ho & Hm)|[Hf (r' & [= <-] & Hr)]]; [|done].
    rewrite (WF_unmarked _ Hwf a o Ho) in Hm. done. }
  intros a. split.
  - intros Ha. exists r. split; [done|]. by apply Hf.
  - intros (r' & [= <-] & Hreach).
    assert (Hfm : ∀ a, is_marked h' a -> fields_marked h' a) by (intros; by apply Hf).
    clear Hf Hnew Hp.
    induction Hreach as [a|a b c o Ho Hty Hhd _ IH|a b c o Ho Hty Htl _ IH];
      [done|apply IH|apply IH].
    + destruct (erase_lookup _ _ _ _ He Ho) as (o' & Ho' & Heq).
      destruct (Hfm a Mr o' Ho') as (b' & c' & Hb' & _ & Mb & _); [by rewrite Heq|].
      rewrite Heq in Hb'. simpl in Hb'. congruence.
    + destruct (erase_lookup _ _ _ _ He Ho) as (o' & Ho' & Heq).
      destruct (Hfm a Mr o' Ho') as (b' & c' & _ & Hc' & _ & Mc); [by rewrite Heq|].
      rewrite Heq in Hc'. simpl in Hc'. congruence.
Qed.

Lemma mark_marks_exactly_reach_witness :
  wf vm_cyclic = true ∧ valid (heap vm_cyclic) (Some 4%positive) = true ∧
  ∃ h', mark (mark_fuel (heap vm_cyclic)) (Some 4%positive) (heap vm_cyclic) = Ret tt h' ∧
        erase h' = erase (heap vm_cyclic) ∧
        ∀ a, is_marked h' a ↔
             ∃ r, Some 4%positive = Some r ∧ reach (heap vm_cyclic) r a.
Proof.
  split; [vm_compute; reflexivity|]. split; [vm_compute; reflexivity|].
  apply (mark_marks_exactly_reach vm_cyclic (Some 4%positive)); vm_compute; reflexivity.
Defined.

(** ** The stack *)

(** X7. [pop] undoes [push] and [push] undoes [pop]: popping right after
    a push returns the pushed reference and the old depth, with the heap
    and the counters untouched (the slot keeps the reference); pushing
    back what was popped gives the very state before the pop. *)
Theorem push_pop_round_trip vm :
  Z.of_nat (length (stack vm)) = STACK_MAX_SIZE ->
  (∀ value, 0 <= stackSize vm < STACK_MAX_SIZE ->
     (push value ;;; pop) vm =
       Ret value (with_stack (<[Z.to_nat (stackSize vm) := value]> (stack vm))
                             (stackSize vm) vm)) ∧
  (0 < stackSize vm <= STACK_MAX_SIZE -> (p <- pop ;; push p) vm = Ret tt vm).
Proof.
  intros Hlen. split.
  - intros value Hn. unfold bind. rewrite push_Ret by done.
    destruct (pop_Ret (with_stack (<[Z.to_nat (stackSize vm) := value]> (stack vm))
                                  (stackSize vm + 1) vm)) as (p & Hp & ->).
    + simpl. lia.
    + simpl. by rewrite length_insert.
    + simpl in Hp.
      replace (stackSize vm + 1 - 1) with (stackSize vm) in * by lia.
      rewrite list_lookup_insert_eq in Hp by lia. injection Hp as <-.
      unfold with_stackSize, with_stack. simpl.
      by replace (stackSize vm + 1 - 1) with (stackSize vm) by lia.
  - intros Hn. unfold bind. destruct (pop_Ret vm) as (p & Hp & ->); [done..|].
    rewrite push_Ret by (simpl; lia). f_equal.
    unfold with_stack, with_stackSize. simpl.
    rewrite list_insert_id by done.
    replace (stackSize vm - 1 + 1) with (stackSize vm) by lia. by destruct vm.
Qed.

Lemma push_pop_round_trip_witness :
  Z.of_nat (length (stack vm_two)) = STACK_MAX_SIZE ∧
  0 < stackSize vm_two <= STACK_MAX_SIZE ∧
  (p <- pop ;; push p) vm_two = Ret tt vm_two.
Proof.
  split; [vm_compute; reflexivity|].
  split; [vm_compute; split; [reflexivity|intros [=]]|].
  apply (push_pop_round_trip vm_two); [vm_compute; reflexivity|].
  vm_compute. split; [reflexivity|intros [=]].
Defined.

(** ** Pushing ints *)

(** X8. On a stack that is not full [pushInt] returns: a new int object
    holding the value heads the registry and is the new top of the stack,
    the entries below are as before, [numObjects] is one higher, and a
    [pop] right after returns the object and the old depth. *)
Theorem pushInt_pushes_new_int intValue vm :
  wf vm = true -> stackSize vm < STACK_MAX_SIZE -> 0 <= numObjects vm < INT_MAX ->
  ∃ a nxt vm',
    pushInt intValue vm = Ret tt vm' ∧
    heap vm' !! a = Some (mkObject INT_TYPE false nxt intValue NULL NULL) ∧
    firstObject vm' = Some a ∧
    stack vm' = <[Z.to_nat (stackSize vm) := Some a]> (stack vm) ∧
    stackSize vm' = stackSize vm + 1 ∧
    numObjects vm' = numObjects vm + 1 ∧
    wf vm' = true ∧
    pop vm' = Ret (Some a) (with_stackSize (stackSize vm) vm').
Proof.
  intros Hwf%wf_WF Hn Hnum. pose proof (WF_size _ Hwf) as [Hsz Hlen].
  destruct (pushInt_spec intValue vm Hwf Hn) as (vm1 & _ & Hwf1 & Hs & Hsn & Heq).
  eexists _, _, _. split; [exact Heq|]. simpl.
  split; [by rewrite lookup_insert_eq|]. split; [done|]. split; [done|].
  split; [done|]. split; [apply int_wrap_small; unfold INT_MAX in Hnum; lia|].
  split; [apply WF_wf, (pushInt_WF intValue vm); [done|exact Heq]|].
  match goal with |- pop ?s = _ => destruct (pop_Ret s) as (p & Hp & ->) end.
  - simpl. lia.
  - simpl. by rewrite length_insert.
  - simpl in Hp. replace (stackSize vm + 1 - 1) with (stackSize vm) in * by lia.
    rewrite list_lookup_insert_eq in Hp by lia. injection Hp as <-.
    unfold with_stackSize. simpl.
    by replace (stackSize vm + 1 - 1) with (stackSize vm) by lia.
Qed.

Lemma pushInt_pushes_new_int_witness :
  wf vm_two = true ∧ stackSize vm_two < STACK_MAX_SIZE ∧
  0 <= numObjects vm_two < INT_MAX ∧
  ∃ a nxt vm',
    pushInt 9 vm_two = Ret tt vm' ∧
    heap vm' !! a = Some (mkObject INT_TYPE false nxt 9 NULL NULL) ∧
    firstObject vm' = Some a ∧
    stack vm' = <[Z.to_nat (stackSize vm_two) := Some a]> (stack vm_two) ∧
    stackSize vm' = stackSize vm_two + 1 ∧
    numObjects vm' = numObjects vm_two + 1 ∧
    wf vm' = true ∧
    pop vm' = Ret (Some a) (with_stackSize (stackSize vm_two) vm').
Proof.
  split; [vm_compute; reflexivity|]. split; [vm_compute; reflexivity|].
  split; [vm_compute; split; [intros [=]|reflexivity]|].
  apply (pushInt_pushes_new_int 9 vm_two).
  - vm_compute; reflexivity.
  - vm_compute; reflexivity.
  - vm_compute. split; [intros [=]|reflexivity].
Defined.

(** X9. From a well-formed state the overflow exit is never taken:
    [pushInt] on a full stack allocates its object and then stores one
    slot past the end of the stack array; [pushInt] never exits,
    [pushPair] exits only with the underflow message and only on a stack
    of fewer than two entries, [pop] only with the underflow message on
    an empty stack, and [gc] never. *)
Theorem no_overflow_exit vm :
  wf vm = true ->
  (∀ intValue, stackSize vm = STACK_MAX_SIZE ->
     pushInt intValue vm = Undefined (OutOfBounds STACK_MAX_SIZE)) ∧
  (∀ intValue e vm', pushInt intValue vm ≠ Exit e vm') ∧
  (∀ e vm', pushPair vm = Exit e vm' -> e = StackUnderflow ∧ stackSize vm < 2) ∧
  (∀ e vm', pop vm = Exit e vm' -> e = StackUnderflow ∧ stackSize vm = 0) ∧
  (∀ e vm', gc vm ≠ Exit e vm').
Proof.
  intros Hwf%wf_WF. pose proof (WF_size _ Hwf) as [Hsz Hlen].
  split; [|split; [|split; [|split]]].
  - intros v Hn. by apply pushInt_full.
  - intros v e vm' Hrun.
    destruct (decide (stackSize vm = STACK_MAX_SIZE)) as [Hfull|Hfull].
    + by rewrite pushInt_full in Hrun.
    + destruct (pushInt_spec v vm Hwf) as (? & _ & _ & _ & _ & Heq); [lia|].
      congruence.
  - intros e vm' Hrun. destruct (decide (stackSize vm < 2)) as [Hfew|Hfew].
    + destruct (pushPair_underflow vm Hwf Hfew) as (? & ? & _ & Heq).
      rewrite Heq in Hrun. by injection Hrun as <- _.
    + destruct (pushPair_spec vm Hwf) as (? & ? & ? & _ & _ & _ & _ & _ & _ & Heq);
        [lia|]. congruence.
  - intros e vm' Hrun. destruct (decide (stackSize vm = 0)) as [H0|H0].
    + rewrite pop_Exit in Hrun by lia. by injection Hrun as <- _.
    + destruct (pop_Ret vm) as (? & _ & Heq); [lia|done|]. congruence.
  - intros e vm' Hrun. destruct (gc_spec vm Hwf) as (? & Heq & _). congruence.
Qed.

Lemma no_overflow_exit_witness :
  wf vm_full = true ∧ stackSize vm_full = STACK_MAX_SIZE ∧
  pushInt 3 vm_full = Undefined (OutOfBounds STACK_MAX_SIZE).
Proof.
  split; [vm_compute; reflexivity|]. split; [reflexivity|].
  apply (no_overflow_exit vm_full); [vm_compute; reflexivity|reflexivity].
Defined.

(** ** Allocation and the collection threshold *)

Lemma newObject_gc_keeps vm vm1 :
  (if numObjects vm =? maxObjects vm then gc_post vm vm1 else vm1 = vm) ->
  ∀ a o, heap vm !! a = Some o -> reachable vm a ->
    ∃ o1, heap vm1 !! a = Some o1 ∧ o1 = set_next (next o1) o.
Proof.
  destruct (numObjects vm =? maxObjects vm).
  - intros (_ & Hkeep & _). exact Hkeep.
  - intros -> a o Ho _. exists o. by rewrite set_next_id.
Qed.

Lemma newObject_gc_registry vm vm1 l :
  WF vm -> registry vm = Some l ->
  (if numObjects vm =? maxObjects vm then gc_post vm vm1 else vm1 = vm) ->
  WF vm1 ->
  ∃ l1, registry vm1 = Some l1 ∧ NoDup l1 ∧ (length l1 <= length l)%nat.
Proof.
  intros Hwf Hl Hgc Hwf1. destruct (WF_registry vm1 Hwf1) as (l1 & Hl1 & Hnd1 & _).
  exists l1. split; [done|]. split; [done|].
  destruct (numObjects vm =? maxObjects vm).
  - destruct (gc_registry vm vm1 Hwf Hgc) as (l0 & l1' & Hl0 & Hl1' & Hsub & _).
    rewrite Hl in Hl0. rewrite Hl1 in Hl1'. injection Hl0 as <-. injection Hl1' as <-.
    by apply sublist_length.
  - subst vm1. rewrite Hl in Hl1. by injection Hl1 as <-.
Qed.

(** X10. Allocation never frees or alters an object in use: when
    [pushInt] or [pushPair] returns, with or without a collection on the
    way, every object that was reachable from the stack is still
    allocated with the same type, value, head and tail. *)
Theorem allocation_keeps_reachable vm :
  wf vm = true ->
  (∀ intValue vm', pushInt intValue vm = Ret tt vm' ->
     ∀ a o, heap vm !! a = Some o -> reachable vm a ->
       ∃ o', heap vm' !! a = Some o' ∧ o' = set_next (next o') o) ∧
  (∀ p vm', pushPair vm = Ret p vm' ->
     ∀ a o, heap vm !! a = Some o -> reachable vm a ->
       ∃ o', heap vm' !! a = Some o' ∧ o' = set_next (next o') o).
Proof.
  intros Hwf%wf_WF. pose proof (WF_size _ Hwf) as [Hsz Hlen]. split.
  - intros v vm' Hrun a o Ho Hr.
    destruct (decide (stackSize vm = STACK_MAX_SIZE)) as [Hfull|Hfull].
    { by rewrite pushInt_full in Hrun. }
    destruct (pushInt_spec v vm Hwf) as (vm1 & Hgc & _ & _ & _ & Heq); [lia|].
    rewrite Heq in Hrun. injection Hrun as <-. simpl.
    destruct (newObject_gc_keeps vm vm1 Hgc a o Ho Hr) as (o1 & Ho1 & Heq1).
    exists o1. split; [|done]. rewrite lookup_insert_ne; [done|].
    intros E. rewrite <- E, malloc_fresh in Ho1. done.
  - intros p vm' Hrun a o Ho Hr.
    destruct (decide (stackSize vm < 2)) as [Hfew|Hfew].
    { destruct (pushPair_underflow vm Hwf Hfew) as (? & ? & _ & Heq). congruence. }
    destruct (pushPair_spec vm Hwf) as (vm1 & h & t & Hgc & _ & _ & _ & _ & _ & Heq);
      [lia|].
    rewrite Heq in Hrun. injection Hrun as <- <-. simpl.
    destruct (newObject_gc_keeps vm vm1 Hgc a o Ho Hr) as (o1 & Ho1 & Heq1).
    exists o1. split; [|done]. rewrite lookup_insert_ne; [done|].
    intros E. rewrite <- E, malloc_fresh in Ho1. done.
Qed.

Lemma allocation_keeps_reachable_witness :
  wf vm_one_root = true ∧
  ∀ intValue vm', pushInt intValue vm_one_root = Ret tt vm' ->
    ∀ a o, heap vm_one_root !! a = Some o -> reachable vm_one_root a ->
      ∃ o', heap vm' !! a = Some o' ∧ o' = set_next (next o') o.
Proof.
  split; [vm_compute; reflexivity|].
  apply (allocation_keeps_reachable vm_one_root). vm_compute; reflexivity.
Defined.

(** X11. [newObject] collects exactly when [numObjects] equals
    [maxObjects].  Otherwise it only adds the new object, at a free
    address and at the head of the registry, and leaves the threshold.
    At the threshold it first collects: the threshold becomes twice
    [numObjects], every unreachable object is freed (the new object may
    take the address of one), every reachable one is kept with its
    contents. *)
Theorem newObject_collects_at_threshold ty vm :
  wf vm = true ->
  (numObjects vm ≠ maxObjects vm ->
     heap vm !! malloc (heap vm) = None ∧
     newObject ty vm =
       Ret (malloc (heap vm))
         (mkVM (stack vm) (stackSize vm) (int_wrap (numObjects vm + 1))
               (maxObjects vm) (Some (malloc (heap vm)))
               (<[malloc (heap vm) := mkObject ty false (firstObject vm) 0 NULL NULL]>
                  (heap vm)))) ∧
  (numObjects vm = maxObjects vm ->
     ∃ a vm', newObject ty vm = Ret a vm' ∧
       maxObjects vm' = int_wrap (numObjects vm * 2) ∧
       (∀ b, b ≠ a -> ¬ reachable vm b -> heap vm' !! b = None) ∧
       (∀ b o, heap vm !! b = Some o -> reachable vm b ->
          ∃ o', heap vm' !! b = Some o' ∧ o' = set_next (next o') o)).
Proof.
  intros Hwf%wf_WF.
  destruct (newObject_spec ty vm Hwf) as (vm1 & Hgc & Hwf1 & _ & _ & Heq).
  split.
  - intros Hne. apply Z.eqb_neq in Hne. rewrite Hne in Hgc. subst vm1.
    split; [apply malloc_fresh|done].
  - intros He. pose proof (newObject_gc_keeps vm vm1 Hgc) as Hkeep1.
    apply Z.eqb_eq in He. rewrite He in Hgc.
    destruct Hgc as ((_ & _ & _ & Hmax) & _ & Hfree & _).
    eexists _, _. split; [exact Heq|]. simpl. split; [done|]. split.
    + intros b Hb Hnr. rewrite lookup_insert_ne by done. by apply Hfree.
    + intros b o Ho Hr. destruct (Hkeep1 b o Ho Hr) as (o1 & Ho1 & Heq1).
      exists o1. split; [|done]. rewrite lookup_insert_ne; [done|].
      intros E. rewrite <- E, malloc_fresh in Ho1. done.
Qed.

Lemma newObject_collects_at_threshold_witness :
  wf vm_main = true ∧ numObjects vm_main ≠ maxObjects vm_main ∧
  heap vm_main !! malloc (heap vm_main) = None ∧
  newObject INT_TYPE vm_main =
    Ret (malloc (heap vm_main))
      (mkVM (stack vm_main) (stackSize vm_main) (int_wrap (numObjects vm_main + 1))
            (maxObjects vm_main) (Some (malloc (heap vm_main)))
            (<[malloc (heap vm_main) :=
                 mkObject INT_TYPE false (firstObject vm_main) 0 NULL NULL]>
               (heap vm_main))).
Proof.
  split; [vm_compute; reflexivity|]. split; [vm_compute; intros [=]|].
  apply (newObject_collects_at_threshold INT_TYPE vm_main).
  - vm_compute; reflexivity.
  - vm_compute. intros [=].
Defined.

(** X12. The trigger of [newObject] is an equality test: once
    [numObjects] is above [maxObjects], as it is after a collection at
    [numObjects = 0] and one allocation, no allocation collects any more.
    [pushInt] and [pushPair] then free nothing and leave [numObjects]
    above [maxObjects]. *)
Theorem no_collection_past_threshold vm :
  wf vm = true -> 0 <= maxObjects vm < numObjects vm -> numObjects vm < INT_MAX ->
  (∀ intValue vm', pushInt intValue vm = Ret tt vm' ->
     (∀ b o, heap vm !! b = Some o -> heap vm' !! b = Some o) ∧
     maxObjects vm' = maxObjects vm ∧ numObjects vm' = numObjects vm + 1) ∧
  (∀ p vm', pushPair vm = Ret p vm' ->
     (∀ b o, heap vm !! b = Some o -> heap vm' !! b = Some o) ∧
     maxObjects vm' = maxObjects vm ∧ numObjects vm' = numObjects vm + 1).
Proof.
  intros Hwf%wf_WF Hmax Hnum. pose proof (WF_size _ Hwf) as [Hsz Hlen].
  assert (Hne : (numObjects vm =? maxObjects vm) = false) by (apply Z.eqb_neq; lia).
  assert (Hw : int_wrap (numObjects vm + 1) = numObjects vm + 1)
    by (apply int_wrap_small; unfold INT_MAX in Hnum; lia).
  assert (Hfresh : ∀ b o, heap vm !! b = Some o -> malloc (heap vm) ≠ b).
  { intros b o Ho E. rewrite <- E, malloc_fresh in Ho. done. }
  split.
  - intros v vm' Hrun.
    destruct (decide (stackSize vm = STACK_MAX_SIZE)) as [Hfull|Hfull].
    { by rewrite pushInt_full in Hrun. }
    destruct (pushInt_spec v vm Hwf) as (vm1 & Hgc & _ & _ & _ & Heq); [lia|].
    rewrite Hne in Hgc. subst vm1. rewrite Heq in Hrun. injection Hrun as <-. simpl.
    split; [|done]. intros b o Ho. rewrite lookup_insert_ne; eauto.
  - intros p vm' Hrun.
    destruct (decide (stackSize vm < 2)) as [Hfew|Hfew].
    { destruct (pushPair_underflow vm Hwf Hfew) as (? & ? & _ & Heq). congruence. }
    destruct (pushPair_spec vm Hwf) as (vm1 & h & t & Hgc & _ & _ & _ & _ & _ & Heq);
      [lia|].
    rewrite Hne in Hgc. subst vm1. rewrite Heq in Hrun. injection Hrun as <- <-. simpl.
    split; [|done]. intros b o Ho. rewrite lookup_insert_ne; eauto.
Qed.

Lemma no_collection_past_threshold_witness :
  wf vm_past = true ∧ 0 <= maxObjects vm_past < numObjects vm_past ∧
  numObjects vm_past < INT_MAX ∧
  ∀ intValue vm', pushInt intValue vm_past = Ret tt vm' ->
     (∀ b o, heap vm_past !! b = Some o -> heap vm' !! b = Some o) ∧
     maxObjects vm' = maxObjects vm_past ∧ numObjects vm' = numObjects vm_past + 1.
Proof.
  split; [vm_compute; reflexivity|].
  split; [vm_compute; split; [intros [=]|reflexivity]|].
  split; [vm_compute; reflexivity|].
  apply (no_collection_past_threshold vm_past).
  - vm_compute; reflexivity.
  - vm_compute. split; [intros [=]|reflexivity].
  - vm_compute; reflexivity.
Defined.

(** X13. [numObjects] never falls below the number of registered
    objects: if it bounds the length of the registry before [pushInt],
    [pushPair], [pop] or [gc], it does so when the call returns. *)
Theorem numObjects_bounds_registry vm l :
  wf vm = true -> registry vm = Some l ->
  Z.of_nat (length l) <= numObjects vm < INT_MAX ->
  (∀ intValue vm', pushInt intValue vm = Ret tt vm' ->
     ∃ l', registry vm' = Some l' ∧ Z.of_nat (length l') <= numObjects vm') ∧
  (∀ p vm', pushPair vm = Ret p vm' ->
     ∃ l', registry vm' = Some l' ∧ Z.of_nat (length l') <= numObjects vm') ∧
  (∀ p vm', pop vm = Ret p vm' ->
     ∃ l', registry vm' = Some l' ∧ Z.of_nat (length l') <= numObjects vm') ∧
  (∀ vm', gc vm = Ret tt vm' ->
     ∃ l', registry vm' = Some l' ∧ Z.of_nat (length l') <= numObjects vm').
Proof.
  intros Hwf%wf_WF Hl Hnum. pose proof (WF_size _ Hwf) as [Hsz Hlen].
  assert (Hw : int_wrap (numObjects vm + 1) = numObjects vm + 1)
    by (apply int_wrap_small; unfold INT_MAX in Hnum; lia).
  split; [|split; [|split]].
  - intros v vm' Hrun.
    destruct (decide (stackSize vm = STACK_MAX_SIZE)) as [Hfull|Hfull].
    { by rewrite pushInt_full in Hrun. }
    destruct (pushInt_spec v vm Hwf) as (vm1 & Hgc & Hwf1 & _ & _ & Heq); [lia|].
    rewrite Heq in Hrun. injection Hrun as <-.
    destruct (newObject_gc_registry vm vm1 l Hwf Hl Hgc Hwf1) as (l1 & Hl1 & Hnd1 & Hlen1).
    exists (malloc (heap vm1) :: l1). split; [by apply registry_alloc|].
    simpl. lia.
  - intros p vm' Hrun.
    destruct (decide (stackSize vm < 2)) as [Hfew|Hfew].
    { destruct (pushPair_underflow vm Hwf Hfew) as (? & ? & _ & Heq). congruence. }
    destruct (pushPair_spec vm Hwf) as (vm1 & h & t & Hgc & Hwf1 & _ & _ & _ & _ & Heq);
      [lia|].
    rewrite Heq in Hrun. injection Hrun as <- <-.
    destruct (newObject_gc_registry vm vm1 l Hwf Hl Hgc Hwf1) as (l1 & Hl1 & Hnd1 & Hlen1).
    exists (malloc (heap vm1) :: l1). split; [by apply registry_alloc|].
    simpl. lia.
  - intros p vm' Hrun. destruct (decide (stackSize vm <= 0)) as [H0|H0].
    { by rewrite pop_Exit in Hrun. }
    destruct (pop_Ret vm) as (q & _ & Heq); [lia|done|].
    rewrite Heq in Hrun. injection Hrun as <- <-. exists l. split; [done|]. simpl. lia.
  - intros vm' Hrun. destruct (gc_spec vm Hwf) as (vm2 & Hgc & Hpost).
    rewrite Hgc in Hrun. injection Hrun as <-.
    destruct (gc_registry vm vm2 Hwf Hpost) as (l0 & l' & Hl0 & Hl' & Hsub & _).
    rewrite Hl in Hl0. injection Hl0 as <-. apply sublist_length in Hsub.
    exists l'. split; [done|]. destruct Hpost as ((_ & _ & -> & _) & _). lia.
Qed.

Lemma numObjects_bounds_registry_witness :
  wf vm_main = true ∧ registry vm_main = Some [5; 4; 3; 2; 1]%positive ∧
  Z.of_nat (length [5; 4; 3; 2; 1]%positive) <= numObjects vm_main < INT_MAX ∧
  ∀ vm', gc vm_main = Ret tt vm' ->
     ∃ l', registry vm' = Some l' ∧ Z.of_nat (length l') <= numObjects vm'.
Proof.
  split; [vm_compute; reflexivity|]. split; [vm_compute; reflexivity|].
  split; [vm_compute; split; [intros [=]|reflexivity]|].
  apply (numObjects_bounds_registry vm_main [5; 4; 3; 2; 1]%positive).
  - vm_compute; reflexivity.
  - vm_compute; reflexivity.
  - vm_compute. split; [intros [=]|reflexivity].
Defined.
